(** * binpacker: online rectangle packing into a bin

    A shallow embedding of [binpacker.go] (package [binpacker]) and the
    properties of its three operations [Insert], [Enlarge] and [Occupancy].

    Conventions of the embedding:
    - Go's [int] is taken at 64 bits: a value is a [Z] and every [+], [-]
      and [*] of the source is followed by the two's-complement wrap-around
      ([GoInt.add], [GoInt.sub], [GoInt.mul]);
    - a node pointer is [option node] ([None] is [nil]); a [node] owns its children,
      so the tree is an inductive value and a call that mutates the tree in
      place is a function that returns the tree after the call;
    - the pointer that [insert] returns is the node it points to, as it is
      when the call returns;
    - [float64(a) / float64(b)] is the exact quotient in [Q]; rounding of the
      conversions is not represented, and a zero denominator (for which Go
      gives NaN or an infinity) is outside of what [Q] can express. *)

From Stdlib Require Import ZArith List Lia Bool QArith Permutation.
Import ListNotations.
Open Scope Z_scope.

(** ** Go's [int] *)

Module GoInt.

Definition minInt : Z := -9223372036854775808.
Definition maxInt : Z := 9223372036854775807.

(** Two's-complement reduction into [minInt .. maxInt]. *)
Definition wrap (z : Z) : Z :=
  (z + 9223372036854775808) mod 18446744073709551616 - 9223372036854775808.

Definition add (a b : Z) : Z := wrap (a + b).
Definition sub (a b : Z) : Z := wrap (a - b).
Definition mul (a b : Z) : Z := wrap (a * b).

Definition in_range (z : Z) : Prop := minInt <= z <= maxInt.

End GoInt.

(** ** Data *)

(** [type Rect struct{ X, Y, Width, Height int }] *)
Record Rect : Set := mkRect { X : Z; Y : Z; Width : Z; Height : Z }.

(** [type node struct { Rect; left, right *node }] *)
Unset Elimination Schemes.
Inductive node : Set :=
| Node (r : Rect) (left right : option node).
Set Elimination Schemes.

Definition rect (n : node) : Rect := match n with Node r _ _ => r end.
Definition left (n : node) : option node := match n with Node _ l _ => l end.
Definition right (n : node) : option node := match n with Node _ _ rt => rt end.

(** [&node{Rect: r}]: both children are [nil]. *)
Definition leaf (r : Rect) : node := Node r None None.

Definition is_nil (o : option node) : bool :=
  match o with None => true | Some _ => false end.

(** [type Packer struct { root node; binWidth, binHeight int }] *)
Record Packer : Set := mkPacker { root : node; binWidth : Z; binHeight : Z }.

(** The two error values of the package. *)
Inductive error : Set :=
| ErrEnlargeSmaller   (* errors.New("enlarge: new size is smaller") *)
| ErrNoMoreSpace.     (* errors.New("insert: no more space in bin") *)

(** ** Operations *)

Definition New (width height : Z) : Packer :=
  {| root := Node (mkRect 0 0 width height) None None;
     binWidth := width;
     binHeight := height |}.

Definition Enlarge (p : Packer) (newWidth newHeight : Z) : Packer * option error :=
  if (newWidth <? binWidth p) || (newHeight <? binHeight p) then
    (p, Some ErrEnlargeSmaller)
  else
    ({| root :=
          Node (mkRect 0 0 newWidth newHeight)
               (Some (leaf (mkRect 0 (binHeight p)
                                   newWidth (GoInt.sub newHeight (binHeight p)))))
               (Some (leaf (mkRect (binWidth p) 0
                                   (GoInt.sub newWidth (binWidth p)) (binHeight p))));
        binWidth := newWidth;
        binHeight := newHeight |},
     None).

(** What [insert] does at a leaf with rectangle [r] that admits the request:
    the node as it is after the split. *)
Definition split (r : Rect) (width height : Z) : node :=
  let restW := GoInt.sub (Width r) width in
  let restH := GoInt.sub (Height r) height in
  if restW <? restH then
    (* split the remaining space horizontally *)
    Node (mkRect (X r) (Y r) width height)
         (Some (leaf (mkRect (GoInt.add (X r) width) (Y r) restW height)))
         (Some (leaf (mkRect (X r) (GoInt.add (Y r) height) (Width r) restH)))
  else
    (* split the remaining space vertically *)
    Node (mkRect (X r) (Y r) width height)
         (Some (leaf (mkRect (X r) (GoInt.add (Y r) height) width restH)))
         (Some (leaf (mkRect (GoInt.add (X r) width) (Y r) restW (Height r)))).

(** [func insert(n *node, width, height int)], which returns a node
    pointer and an error.  The first component is the subtree rooted at [n] after the call, the
    second the pair that the Go function returns. *)
Fixpoint insert (n : node) (width height : Z) {struct n}
  : node * (option node * option error) :=
  match n with
  | Node r l rt =>
    if negb (is_nil l) || negb (is_nil rt) then
      let '(l1, newNode) :=
        match l with
        | Some ln => let '(ln1, (res, _)) := insert ln width height in (Some ln1, res)
        | None => (None, None)
        end in
      match newNode with
      | Some m => (Node r l1 rt, (Some m, None))
      | None =>
        let '(rt1, newNode) :=
          match rt with
          | Some rn => let '(rn1, (res, _)) := insert rn width height in (Some rn1, res)
          | None => (None, None)
          end in
        match newNode with
        | Some m => (Node r l1 rt1, (Some m, None))
        | None => (Node r l1 rt1, (None, Some ErrNoMoreSpace))
        end
      end
    else
      (* this node is a leaf *)
      if (width >? Width r) || (height >? Height r) then
        (n, (None, Some ErrNoMoreSpace))
      else
        let n1 := split r width height in
        (n1, (Some n1, None))
  end.

(** [func (p *Packer) Insert(width, height int) (Rect, error)] *)
Definition Insert (p : Packer) (width height : Z) : Packer * (Rect * option error) :=
  let '(root1, (n, err)) := insert (root p) width height in
  let p1 := {| root := root1; binWidth := binWidth p; binHeight := binHeight p |} in
  match err with
  | Some e => (p1, (mkRect 0 0 0 0, Some e))
  | None =>
    match n with
    | Some m => (p1, (rect m, None))
    | None => (p1, (mkRect 0 0 0 0, None))
    end
  end.

(** [func usedArea(n *node) int] *)
Fixpoint usedArea (n : node) : Z :=
  match n with
  | Node r l rt =>
    if negb (is_nil l) || negb (is_nil rt) then
      let used := GoInt.mul (Width r) (Height r) in
      let used := match l with
                  | Some ln => GoInt.add used (usedArea ln)
                  | None => used
                  end in
      let used := match rt with
                  | Some rn => GoInt.add used (usedArea rn)
                  | None => used
                  end in
      used
    else 0
  end.

(** [func (p *Packer) Occupancy() float64] *)
Definition Occupancy (p : Packer) : Q :=
  (inject_Z (usedArea (root p)) / inject_Z (GoInt.mul (binWidth p) (binHeight p)))%Q.

(** ** Induction over trees *)

Definition opt_all (P : node -> Prop) (o : option node) : Prop :=
  match o with Some n => P n | None => True end.

Section NodeInduction.
Variable P : node -> Prop.
Hypothesis step : forall r l rt, opt_all P l -> opt_all P rt -> P (Node r l rt).

Fixpoint node_ind (n : node) : P n :=
  match n with
  | Node r l rt =>
    step r l rt
         (match l as o return opt_all P o with Some ln => node_ind ln | None => I end)
         (match rt as o return opt_all P o with Some rn => node_ind rn | None => I end)
  end.
End NodeInduction.

(** ** Addresses of nodes

    A node of a tree is addressed by the turns taken from the root. *)

Inductive dir : Set := L | R.
Definition path : Set := list dir.

Definition child (d : dir) (n : node) : option node :=
  match d with L => left n | R => right n end.

Fixpoint lookup (n : node) (p : path) {struct p} : option node :=
  match p with
  | [] => Some n
  | d :: q => match child d n with Some c => lookup c q | None => None end
  end.

(** [replace n p m]: the tree [n] with the node at address [p] replaced by
    [m]; nothing changes when [p] addresses no node. *)
Fixpoint replace (n : node) (p : path) (m : node) {struct p} : node :=
  match p with
  | [] => m
  | L :: q =>
    match n with
    | Node r (Some ln) rt => Node r (Some (replace ln q m)) rt
    | _ => n
    end
  | R :: q =>
    match n with
    | Node r l (Some rn) => Node r l (Some (replace rn q m))
    | _ => n
    end
  end.

(** ** First fit, in the words of the specification

    The leaves of the tree in depth-first, left-to-right order, each with its
    address; the request goes to the first one whose rectangle admits it. *)

Definition under (d : dir) (a : path * Rect) : path * Rect := (d :: fst a, snd a).

Fixpoint leaves (n : node) : list (path * Rect) :=
  match n with
  | Node r l rt =>
    if negb (is_nil l) || negb (is_nil rt) then
      match l with Some ln => map (under L) (leaves ln) | None => [] end
      ++ match rt with Some rn => map (under R) (leaves rn) | None => [] end
    else [([], r)]
  end.

Definition fits (width height : Z) (r : Rect) : bool :=
  negb ((width >? Width r) || (height >? Height r)).

Definition first_fit (n : node) (width height : Z) : option (path * Rect) :=
  find (fun a => fits width height (snd a)) (leaves n).

Definition insert_first_fit (n : node) (width height : Z)
  : node * (option node * option error) :=
  match first_fit n width height with
  | Some (p, r) => (replace n p (split r width height),
                    (Some (split r width height), None))
  | None => (n, (None, Some ErrNoMoreSpace))
  end.

(** ** Sequences of calls *)

(** [Insert] called with each request in turn: the packer after the calls
    and what each call returned. *)
Fixpoint inserts (p : Packer) (reqs : list (Z * Z))
  : Packer * list (Rect * option error) :=
  match reqs with
  | [] => (p, [])
  | (w, h) :: rest =>
    let '(p1, res) := Insert p w h in
    let '(p2, out) := inserts p1 rest in
    (p2, res :: out)
  end.

(** The rectangles of the calls that returned no error. *)
Fixpoint placed (out : list (Rect * option error)) : list Rect :=
  match out with
  | [] => []
  | (r, None) :: rest => r :: placed rest
  | (_, Some _) :: rest => placed rest
  end.

Inductive call : Set :=
| CallInsert (width height : Z)
| CallEnlarge (newWidth newHeight : Z).

(** One call of the API on a packer; a failed call is a call too. *)
Definition do_call (p : Packer) (c : call) : Packer :=
  match c with
  | CallInsert w h => fst (Insert p w h)
  | CallEnlarge w h => fst (Enlarge p w h)
  end.

Definition do_calls (p : Packer) (cs : list call) : Packer :=
  fold_left do_call cs p.

(** ** Geometry *)

Definition area (r : Rect) : Z := Width r * Height r.

(** Two rectangles overlap when they share a region of positive area. *)
Definition overlap (a b : Rect) : Prop :=
  X a < X b + Width b /\ X b < X a + Width a /\
  Y a < Y b + Height b /\ Y b < Y a + Height a.

(** [a] lies fully within [b]. *)
Definition within (a b : Rect) : Prop :=
  X b <= X a /\ X a + Width a <= X b + Width b /\
  Y b <= Y a /\ Y a + Height a <= Y b + Height b.

(** The unit cell with corner [(i, j)] belongs to [r]. *)
Definition has_cell (r : Rect) (i j : Z) : Prop :=
  X r <= i < X r + Width r /\ Y r <= j < Y r + Height r.

(** A region whose coordinates stay clear of the wrap-around. *)
Definition region_ok (b : Rect) : Prop :=
  0 <= X b /\ 0 <= Y b /\ 0 <= Width b /\ 0 <= Height b /\
  X b + Width b <= GoInt.maxInt /\ Y b + Height b <= GoInt.maxInt.

(** The four remainders of a region [b] once a [w] by [h] rectangle sits in
    its top-left corner: the two of the horizontal split and the two of the
    vertical one. *)
Definition row_rest (b : Rect) (w h : Z) : Rect :=
  mkRect (X b + w) (Y b) (Width b - w) h.
Definition below_full (b : Rect) (w h : Z) : Rect :=
  mkRect (X b) (Y b + h) (Width b) (Height b - h).
Definition below_rest (b : Rect) (w h : Z) : Rect :=
  mkRect (X b) (Y b + h) w (Height b - h).
Definition right_full (b : Rect) (w h : Z) : Rect :=
  mkRect (X b + w) (Y b) (Width b - w) (Height b).

(** [tiles n b]: the subtree [n] is a guillotine partition of the region
    [b].  A leaf is the region itself; an interior node holds a rectangle in
    the top-left corner of the region and its children partition the two
    remainders of one of the two splits. *)
Fixpoint tiles (n : node) (b : Rect) : Prop :=
  match n with
  | Node r None None => r = b
  | Node r (Some ln) (Some rn) =>
    X r = X b /\ Y r = Y b /\
    0 <= Width r <= Width b /\ 0 <= Height r <= Height b /\
    ((tiles ln (row_rest b (Width r) (Height r)) /\
      tiles rn (below_full b (Width r) (Height r))) \/
     (tiles ln (below_rest b (Width r) (Height r)) /\
      tiles rn (right_full b (Width r) (Height r))))
  | _ => False
  end.

(** The rectangles of the interior nodes: the occupied space. *)
Fixpoint occupied (n : node) : list Rect :=
  match n with
  | Node r l rt =>
    if negb (is_nil l) || negb (is_nil rt) then
      r :: match l with Some ln => occupied ln | None => [] end
        ++ match rt with Some rn => occupied rn | None => [] end
    else []
  end.

Definition sum_areas (rs : list Rect) : Z :=
  fold_right (fun r acc => area r + acc) 0 rs.

(** The area of the interior nodes and of the leaves, without wrap-around. *)
Definition used (n : node) : Z := sum_areas (occupied n).
Definition free (n : node) : Z := sum_areas (map snd (leaves n)).

(** The bin of a packer, as a rectangle. *)
Definition bin (p : Packer) : Rect := mkRect 0 0 (binWidth p) (binHeight p).

(** Every request of the list asks for a non-negative width and height. *)
Definition sizes_ok (reqs : list (Z * Z)) : Prop :=
  Forall (fun wh => 0 <= fst wh /\ 0 <= snd wh) reqs.

(** The rectangles [rs] leave no cell of the [w] by [h] bin uncovered. *)
Definition cover_bin (rs : list Rect) (w h : Z) : Prop :=
  forall i j, 0 <= i < w -> 0 <= j < h -> exists r, In r rs /\ has_cell r i j.

(** No two rectangles of the list, taken at different positions, overlap. *)
Definition pairwise_disjoint (rs : list Rect) : Prop :=
  forall i j a b, i <> j -> nth_error rs i = Some a -> nth_error rs j = Some b ->
                  ~ overlap a b.

(** ** Calls of both kinds, and the tree after [Enlarge] *)

(** The calls of the list made in turn: the packer after them and the
    rectangles returned by the calls of [Insert] that returned no error, in
    the order of the calls. *)
Fixpoint run (p : Packer) (cs : list call) : Packer * list Rect :=
  match cs with
  | [] => (p, [])
  | CallInsert w h :: rest =>
    let '(p1, (r, e)) := Insert p w h in
    let '(p2, rs) := run p1 rest in
    (p2, match e with None => r :: rs | Some _ => rs end)
  | CallEnlarge w h :: rest =>
    let '(p1, _) := Enlarge p w h in run p1 rest
  end.

(** Every [Insert] of the list asks for a non-negative width and height and
    every [Enlarge] for sides that are [int]s. *)
Definition calls_ok (cs : list call) : Prop :=
  Forall (fun c => match c with
                   | CallInsert w h => 0 <= w /\ 0 <= h
                   | CallEnlarge w h => w <= GoInt.maxInt /\ h <= GoInt.maxInt
                   end) cs.

(** The two strips that [Enlarge] adds to an [ow] by [oh] bin to make it
    [nw] by [nh]: the one below the old bin and the one to its right. *)
Definition bottom_strip (ow oh nw nh : Z) : Rect := mkRect 0 oh nw (nh - oh).
Definition right_strip (ow oh nw nh : Z) : Rect := mkRect ow 0 (nw - ow) oh.

(** [two_parts n b1 b2]: the node has both children, the left one a
    partition of [b1] and the right one a partition of [b2]; the node's own
    rectangle is not constrained.  This is the shape of the root after
    [Enlarge]. *)
Definition two_parts (n : node) (b1 b2 : Rect) : Prop :=
  match n with
  | Node _ (Some ln) (Some rn) => tiles ln b1 /\ tiles rn b2
  | _ => False
  end.

(** The occupied rectangles below a node, the node's own left out. *)
Definition occupied_below (n : node) : list Rect :=
  match n with
  | Node _ l rt =>
    match l with Some ln => occupied ln | None => [] end
    ++ match rt with Some rn => occupied rn | None => [] end
  end.

(** The number of nodes of a tree. *)
Fixpoint size (n : node) : nat :=
  match n with
  | Node _ l rt =>
    S (match l with Some ln => size ln | None => 0 end
       + match rt with Some rn => size rn | None => 0 end)
  end.

(** What a packer must satisfy for the calls to keep the returned
    rectangles [rs] apart: its sides are non-negative [int]s, the rectangles
    lie within the bin, and either the tree is a partition of the bin whose
    occupied rectangles include [rs] (no [Enlarge] so far), or the root has
    the shape that [Enlarge] gave it over an [ow] by [oh] bin and each
    rectangle of [rs] lies within that old bin or is occupied below the
    root. *)
Definition sound (p : Packer) (rs : list Rect) : Prop :=
  0 <= binWidth p <= GoInt.maxInt /\ 0 <= binHeight p <= GoInt.maxInt /\
  (forall r, In r rs -> within r (bin p)) /\
  ((tiles (root p) (bin p) /\ forall r, In r rs -> In r (occupied (root p))) \/
   (exists ow oh,
       0 <= ow <= binWidth p /\ 0 <= oh <= binHeight p /\
       two_parts (root p)
                 (bottom_strip ow oh (binWidth p) (binHeight p))
                 (right_strip ow oh (binWidth p) (binHeight p)) /\
       forall r, In r rs ->
                 within r (mkRect 0 0 ow oh) \/ In r (occupied_below (root p)))).

(** * Properties *)

(** ** Arithmetic of [int] away from the wrap-around *)

Lemma wrap_in_range (z : Z) : GoInt.in_range z -> GoInt.wrap z = z.
Proof.
  unfold GoInt.in_range, GoInt.minInt, GoInt.maxInt, GoInt.wrap. intros Hz.
  rewrite Z.mod_small by lia. lia.
Qed.

Lemma add_exact (a b : Z) : GoInt.in_range (a + b) -> GoInt.add a b = a + b.
Proof. apply wrap_in_range. Qed.

Lemma sub_exact (a b : Z) : GoInt.in_range (a - b) -> GoInt.sub a b = a - b.
Proof. apply wrap_in_range. Qed.

Lemma mul_exact (a b : Z) : GoInt.in_range (a * b) -> GoInt.mul a b = a * b.
Proof. apply wrap_in_range. Qed.

Lemma nonneg_in_range (z : Z) : 0 <= z <= GoInt.maxInt -> GoInt.in_range z.
Proof. unfold GoInt.in_range, GoInt.minInt, GoInt.maxInt. lia. Qed.

(** ** [insert] is first fit *)

Lemma find_app_first {A} (f : A -> bool) (l1 l2 : list A) :
  find f (l1 ++ l2) = match find f l1 with Some a => Some a | None => find f l2 end.
Proof.
  induction l1 as [|a l1 IH]; simpl; [reflexivity|].
  destruct (f a); [reflexivity | exact IH].
Qed.

Lemma find_under (d : dir) (f : Rect -> bool) (l : list (path * Rect)) :
  find (fun a => f (snd a)) (map (under d) l)
  = option_map (under d) (find (fun a => f (snd a)) l).
Proof.
  induction l as [|a l IH]; simpl; [reflexivity|].
  destruct (f (snd a)); [reflexivity | exact IH].
Qed.

Lemma insert_is_first_fit (n : node) (w h : Z) :
  insert n w h = insert_first_fit n w h.
Proof.
  induction n as [r l rt IHl IHr] using node_ind.
  unfold insert_first_fit, first_fit.
  destruct l as [ln|], rt as [rn|]; simpl in IHl, IHr; simpl.
  - rewrite find_app_first, !find_under, IHl.
    unfold insert_first_fit, first_fit.
    destruct (find _ (leaves ln)) as [[p a]|]; simpl; [reflexivity|].
    rewrite IHr. unfold insert_first_fit, first_fit.
    destruct (find _ (leaves rn)) as [[p a]|]; reflexivity.
  - rewrite app_nil_r, find_under, IHl.
    unfold insert_first_fit, first_fit.
    destruct (find _ (leaves ln)) as [[p a]|]; reflexivity.
  - rewrite find_under, IHr.
    unfold insert_first_fit, first_fit.
    destruct (find _ (leaves rn)) as [[p a]|]; reflexivity.
  - unfold fits. destruct ((w >? Width r) || (h >? Height r)); reflexivity.
Qed.

(** ** Addresses: what [replace] touches *)

Lemma leaves_lookup (n : node) :
  forall p r, In (p, r) (leaves n) -> lookup n p = Some (leaf r).
Proof.
  induction n as [r0 l rt IHl IHr] using node_ind. intros p r Hin.
  destruct l as [ln|], rt as [rn|]; simpl in *.
  - apply in_app_or in Hin. destruct Hin as [Hin|Hin];
      apply in_map_iff in Hin; destruct Hin as [[q a] [E Hin]];
      inversion E; subst; simpl; auto.
  - rewrite app_nil_r in Hin.
    apply in_map_iff in Hin; destruct Hin as [[q a] [E Hin]];
      inversion E; subst; simpl; auto.
  - apply in_map_iff in Hin; destruct Hin as [[q a] [E Hin]];
      inversion E; subst; simpl; auto.
  - destruct Hin as [E|[]]. inversion E; subst. reflexivity.
Qed.

Lemma first_fit_In (n : node) (w h : Z) (p : path) (r : Rect) :
  first_fit n w h = Some (p, r) -> In (p, r) (leaves n) /\ fits w h r = true.
Proof.
  unfold first_fit. intros Hf. apply find_some in Hf. exact Hf.
Qed.

Lemma lookup_replace_at (p : path) :
  forall n x m, lookup n p = Some x -> lookup (replace n p m) p = Some m.
Proof.
  induction p as [|d p IH]; intros n x m Hl; [reflexivity|].
  destruct n as [r l rt]. destruct d; simpl in *.
  - destruct l as [ln|]; [|discriminate]. simpl. eauto.
  - destruct rt as [rn|]; [|discriminate]. simpl. eauto.
Qed.

(** A node of the old tree other than the replaced leaf is found at the same
    address in the new tree, with the same rectangle and the same children
    present. *)
Lemma replace_frame (p : path) :
  forall n lf m q mo,
    lookup n p = Some (leaf lf) -> q <> p -> lookup n q = Some mo ->
    exists mn, lookup (replace n p m) q = Some mn /\ rect mn = rect mo /\
               is_nil (left mn) = is_nil (left mo) /\
               is_nil (right mn) = is_nil (right mo).
Proof.
  induction p as [|d p IH]; intros n lf m q mo Hp Hq Hl.
  - simpl in Hp. inversion Hp; subst n.
    destruct q as [|e q]; [congruence|]. destruct e; discriminate.
  - destruct n as [r l rt]. destruct q as [|e q].
    + simpl in Hl. inversion Hl; subst mo.
      destruct d; simpl in Hp |- *.
      * destruct l as [ln|]; [|discriminate]. eexists; repeat split.
      * destruct rt as [rn|]; [|discriminate]. eexists; repeat split.
    + destruct d, e; simpl in Hp, Hl |- *.
      * destruct l as [ln|]; [|discriminate]. simpl.
        apply (IH ln lf m q mo Hp); [congruence | exact Hl].
      * destruct l as [ln|]; [|discriminate]. simpl.
        exists mo. auto.
      * destruct rt as [rn|]; [|discriminate]. simpl.
        exists mo. auto.
      * destruct rt as [rn|]; [|discriminate]. simpl.
        apply (IH rn lf m q mo Hp); [congruence | exact Hl].
Qed.

(** A node of the new tree that the old tree does not have lies strictly
    below the replaced leaf, inside the replacement. *)
Lemma replace_new (p : path) :
  forall n lf m q mn,
    lookup n p = Some (leaf lf) ->
    lookup (replace n p m) q = Some mn -> lookup n q = None ->
    exists s, q = p ++ s /\ s <> [] /\ lookup m s = Some mn.
Proof.
  induction p as [|d p IH]; intros n lf m q mn Hp Hn Ho.
  - simpl in *. exists q. repeat split; auto.
    intros ->. discriminate.
  - destruct n as [r l rt]. destruct q as [|e q]; [discriminate|].
    destruct d, e; simpl in Hp, Ho, Hn.
    + destruct l as [ln|]; [|discriminate]. simpl in Hn.
      destruct (IH ln lf m q mn Hp Hn Ho) as [s [E [Hs Hm]]].
      exists s. subst q. auto.
    + destruct l as [ln|]; [|discriminate]. simpl in Hn. congruence.
    + destruct rt as [rn|]; [|discriminate]. simpl in Hn. congruence.
    + destruct rt as [rn|]; [|discriminate]. simpl in Hn.
      destruct (IH rn lf m q mn Hp Hn Ho) as [s [E [Hs Hm]]].
      exists s. subst q. auto.
Qed.

Lemma split_shape (r : Rect) (w h : Z) :
  exists c1 c2,
    split r w h = Node (mkRect (X r) (Y r) w h) (Some (leaf c1)) (Some (leaf c2)).
Proof.
  unfold split. destruct (_ <? _); eauto.
Qed.

Lemma rect_split (r : Rect) (w h : Z) :
  rect (split r w h) = mkRect (X r) (Y r) w h.
Proof. unfold split. destruct (_ <? _); reflexivity. Qed.

(** What a call of [Insert] returns and leaves behind, by cases on the first
    fit. *)
Lemma Insert_first_fit (p : Packer) (w h : Z) :
  Insert p w h =
  match first_fit (root p) w h with
  | Some (a, r) =>
    ({| root := replace (root p) a (split r w h);
        binWidth := binWidth p; binHeight := binHeight p |},
     (mkRect (X r) (Y r) w h, None))
  | None => (p, (mkRect 0 0 0 0, Some ErrNoMoreSpace))
  end.
Proof.
  unfold Insert. rewrite insert_is_first_fit. unfold insert_first_fit.
  destruct (first_fit (root p) w h) as [[a r]|].
  - rewrite rect_split. reflexivity.
  - destruct p; reflexivity.
Qed.

(** ** The split at a leaf *)

(** C5. When [insert] is at a leaf whose rectangle [r] admits the request
    ([width <= r.Width] and [height <= r.Height]), with [restW = r.Width -
    width] and [restH = r.Height - height] (Go's subtraction): the leaf
    becomes an interior node with rectangle [(x, y, width, height)]; when
    [restW < restH] its children are the leaves [(x+width, y, restW, height)]
    and [(x, y+height, r.Width, restH)], otherwise (ties included) they are
    [(x, y+height, width, restH)] and [(x+width, y, restW, r.Height)]; the
    node is what [insert] returns and its rectangle is what [Insert]
    returns. *)
Theorem insert_at_leaf (r : Rect) (width height : Z) :
  width <= Width r -> height <= Height r ->
  let restW := GoInt.sub (Width r) width in
  let restH := GoInt.sub (Height r) height in
  let x := X r in
  let y := Y r in
  exists n1,
    insert (leaf r) width height = (n1, (Some n1, None)) /\
    rect n1 = mkRect x y width height /\
    (restW < restH ->
     left n1 = Some (leaf (mkRect (GoInt.add x width) y restW height)) /\
     right n1 = Some (leaf (mkRect x (GoInt.add y height) (Width r) restH))) /\
    (restH <= restW ->
     left n1 = Some (leaf (mkRect x (GoInt.add y height) width restH)) /\
     right n1 = Some (leaf (mkRect (GoInt.add x width) y restW (Height r)))) /\
    (forall bw bh,
        Insert (mkPacker (leaf r) bw bh) width height
        = (mkPacker n1 bw bh, (mkRect x y width height, None))).
Proof.
  intros Hw Hh restW restH x y.
  assert (Hfit : (width >? Width r) || (height >? Height r) = false).
  { apply orb_false_iff. rewrite !Z.gtb_ltb, !Z.ltb_ge. split; assumption. }
  exists (split r width height). split; [|split; [|split; [|split]]].
  - simpl. rewrite Hfit. reflexivity.
  - apply rect_split.
  - intros Hlt. unfold split. fold restW restH.
    apply Z.ltb_lt in Hlt. rewrite Hlt. split; reflexivity.
  - intros Hge. unfold split. fold restW restH.
    apply Z.ltb_ge in Hge. rewrite Hge. split; reflexivity.
  - intros bw bh. unfold Insert. simpl. rewrite Hfit.
    rewrite rect_split. reflexivity.
Qed.

Lemma insert_at_leaf_witness :
  exists n1,
    insert (leaf (mkRect 0 0 4 4)) 3 3 = (n1, (Some n1, None)) /\
    rect n1 = mkRect 0 0 3 3.
Proof.
  destruct (insert_at_leaf (mkRect 0 0 4 4) 3 3) as [n1 [H1 [H2 _]]].
  - simpl. lia.
  - simpl. lia.
  - exists n1. split; assumption.
Defined.

(** ** The order of the search *)

(** C6. At an interior node [insert] goes into the left child first; when
    that call returns a node, the node is returned and the right child is
    left as it was; otherwise the right child is tried and what it returns,
    a node or none, is what the interior node returns.  As a consequence
    [insert] is first fit: the request is placed in the first leaf, in
    depth-first left-to-right order, whose rectangle admits it, and fails
    when there is none. *)
Theorem insert_depth_first (r : Rect) (ln rn : node) (width height : Z) :
  (forall ln1 m e,
      insert ln width height = (ln1, (Some m, e)) ->
      insert (Node r (Some ln) (Some rn)) width height
      = (Node r (Some ln1) (Some rn), (Some m, None))) /\
  (forall ln1 e rn1 res e',
      insert ln width height = (ln1, (None, e)) ->
      insert rn width height = (rn1, (res, e')) ->
      insert (Node r (Some ln) (Some rn)) width height
      = (Node r (Some ln1) (Some rn1),
         (res, match res with Some _ => None | None => Some ErrNoMoreSpace end))) /\
  (forall n, insert n width height = insert_first_fit n width height) /\
  (forall p,
      Insert p width height =
      match first_fit (root p) width height with
      | Some (a, lf) =>
        ({| root := replace (root p) a (split lf width height);
            binWidth := binWidth p; binHeight := binHeight p |},
         (mkRect (X lf) (Y lf) width height, None))
      | None => (p, (mkRect 0 0 0 0, Some ErrNoMoreSpace))
      end).
Proof.
  split; [|split; [|split]].
  - intros ln1 m e H. simpl. rewrite H. reflexivity.
  - intros ln1 e rn1 res e' Hl Hr. simpl. rewrite Hl, Hr.
    destruct res; reflexivity.
  - intros n. apply insert_is_first_fit.
  - intros p. apply Insert_first_fit.
Qed.

Lemma insert_depth_first_witness :
  insert (Node (mkRect 0 0 3 3)
               (Some (leaf (mkRect 0 3 3 1))) (Some (leaf (mkRect 3 0 1 4)))) 1 4
  = (Node (mkRect 0 0 3 3)
          (Some (leaf (mkRect 0 3 3 1)))
          (Some (Node (mkRect 3 0 1 4)
                      (Some (leaf (mkRect 3 4 1 0))) (Some (leaf (mkRect 4 0 0 4))))),
     (Some (Node (mkRect 3 0 1 4)
                 (Some (leaf (mkRect 3 4 1 0))) (Some (leaf (mkRect 4 0 0 4)))),
      None)).
Proof.
  destruct (insert_depth_first (mkRect 0 0 3 3)
              (leaf (mkRect 0 3 3 1)) (leaf (mkRect 3 0 1 4)) 1 4) as [_ [H _]].
  apply (H (leaf (mkRect 0 3 3 1)) (Some ErrNoMoreSpace)
           (Node (mkRect 3 0 1 4)
                 (Some (leaf (mkRect 3 4 1 0))) (Some (leaf (mkRect 4 0 0 4))))
           (Some (Node (mkRect 3 0 1 4)
                 (Some (leaf (mkRect 3 4 1 0))) (Some (leaf (mkRect 4 0 0 4)))))
           None); reflexivity.
Defined.

(** ** [Enlarge] *)

(** C7. [Enlarge] returns an error exactly when the new width is below the
    bin's width or the new height below the bin's height.  Otherwise the root
    becomes an interior node with rectangle [(0, 0, newWidth, newHeight)]
    whose children are the leaves [(0, binHeight, newWidth, newHeight -
    binHeight)] and [(binWidth, 0, newWidth - binWidth, binHeight)] (Go's
    subtraction), and the bin's dimensions become the new ones. *)
Theorem Enlarge_spec (p : Packer) (newWidth newHeight : Z) :
  ((exists e, snd (Enlarge p newWidth newHeight) = Some e)
   <-> (newWidth < binWidth p \/ newHeight < binHeight p)) /\
  (snd (Enlarge p newWidth newHeight) = None ->
   fst (Enlarge p newWidth newHeight)
   = {| root :=
          Node (mkRect 0 0 newWidth newHeight)
               (Some (leaf (mkRect 0 (binHeight p) newWidth
                                   (GoInt.sub newHeight (binHeight p)))))
               (Some (leaf (mkRect (binWidth p) 0
                                   (GoInt.sub newWidth (binWidth p)) (binHeight p))));
        binWidth := newWidth;
        binHeight := newHeight |}).
Proof.
  unfold Enlarge.
  destruct ((newWidth <? binWidth p) || (newHeight <? binHeight p)) eqn:E; simpl.
  - apply orb_true_iff in E. rewrite !Z.ltb_lt in E.
    split; [split; [intros _; exact E | intros _; eauto] | discriminate].
  - apply orb_false_iff in E. rewrite !Z.ltb_ge in E.
    split; [split; [intros [e He]; discriminate | lia] | reflexivity].
Qed.

Lemma Enlarge_spec_witness :
  fst (Enlarge (New 5 5) 20 20)
  = {| root := Node (mkRect 0 0 20 20)
                    (Some (leaf (mkRect 0 5 20 15))) (Some (leaf (mkRect 5 0 15 5)));
       binWidth := 20; binHeight := 20 |}.
Proof.
  destruct (Enlarge_spec (New 5 5) 20 20) as [_ H].
  apply H. reflexivity.
Defined.

(** ** Failed calls *)

(** C8. A call of [Insert] that returns an error returns the no-space error
    and leaves the packer, that is the whole tree and the bin's dimensions,
    as it was; a call of [Enlarge] that returns an error leaves the packer as
    it was. *)
Theorem failure_is_atomic (p : Packer) (a b : Z) :
  (forall p1 r e, Insert p a b = (p1, (r, Some e)) ->
                  p1 = p /\ e = ErrNoMoreSpace) /\
  (forall p1 e, Enlarge p a b = (p1, Some e) -> p1 = p).
Proof.
  split.
  - intros p1 r e. rewrite Insert_first_fit.
    destruct (first_fit (root p) a b) as [[q lf]|]; intros H; inversion H; auto.
  - intros p1 e. unfold Enlarge.
    destruct ((a <? binWidth p) || (b <? binHeight p)); intros H; inversion H; auto.
Qed.

Lemma failure_is_atomic_witness :
  fst (Insert (New 4 4) 5 1) = New 4 4 /\ fst (Enlarge (New 4 4) 3 9) = New 4 4.
Proof.
  destruct (failure_is_atomic (New 4 4) 5 1) as [HI _].
  destruct (failure_is_atomic (New 4 4) 3 9) as [_ HE].
  split.
  - apply (HI (fst (Insert (New 4 4) 5 1)) (mkRect 0 0 0 0) ErrNoMoreSpace).
    reflexivity.
  - apply (HE (fst (Enlarge (New 4 4) 3 9)) ErrEnlargeSmaller). reflexivity.
Defined.

(** ** What a successful call touches *)

(** C10. A call of [Insert] that succeeds changes one node of the tree: a
    leaf, whose width and height become the requested ones and which gets two
    new leaves as children; its rectangle after the call is the returned
    one.  Every other node of the tree is still at its address, with its
    rectangle and with the children it had; the only other nodes of the new
    tree are the two new children; the bin's dimensions are as before. *)
Theorem Insert_frame (p p1 : Packer) (width height : Z) (r : Rect) :
  Insert p width height = (p1, (r, None)) ->
  exists a lf c1 c2,
    lookup (root p) a = Some (leaf lf) /\
    lookup (root p1) a
    = Some (Node (mkRect (X lf) (Y lf) width height)
                 (Some (leaf c1)) (Some (leaf c2))) /\
    r = mkRect (X lf) (Y lf) width height /\
    (forall q mo,
        q <> a -> lookup (root p) q = Some mo ->
        exists mn, lookup (root p1) q = Some mn /\ rect mn = rect mo /\
                   is_nil (left mn) = is_nil (left mo) /\
                   is_nil (right mn) = is_nil (right mo)) /\
    (forall q mn,
        lookup (root p1) q = Some mn -> lookup (root p) q = None ->
        q = a ++ [L] \/ q = a ++ [R]) /\
    binWidth p1 = binWidth p /\ binHeight p1 = binHeight p.
Proof.
  rewrite Insert_first_fit.
  destruct (first_fit (root p) width height) as [[a lf]|] eqn:Hff;
    intros H; inversion H; subst; clear H.
  apply first_fit_In in Hff. destruct Hff as [Hin _].
  apply leaves_lookup in Hin.
  destruct (split_shape lf width height) as [c1 [c2 Hs]].
  exists a, lf, c1, c2. simpl. repeat split.
  - exact Hin.
  - rewrite <- Hs. eapply lookup_replace_at; eassumption.
  - intros q mo Hq Hl. eapply replace_frame; eassumption.
  - intros q mn Hn Ho.
    destruct (replace_new a _ lf _ q mn Hin Hn Ho) as [s [E [Hne Hm]]].
    rewrite Hs in Hm. subst q.
    destruct s as [|d s]; [congruence|].
    destruct s as [|e s]; [destruct d; auto|].
    exfalso. destruct d, e; simpl in Hm; discriminate.
Qed.

Lemma Insert_frame_witness :
  exists a lf c1 c2,
    lookup (root (New 4 4)) a = Some (leaf lf) /\
    lookup (root (fst (Insert (New 4 4) 3 3))) a
    = Some (Node (mkRect (X lf) (Y lf) 3 3) (Some (leaf c1)) (Some (leaf c2))).
Proof.
  destruct (Insert_frame (New 4 4) (fst (Insert (New 4 4) 3 3)) 3 3 (mkRect 0 0 3 3))
    as [a [lf [c1 [c2 [H1 [H2 _]]]]]].
  - reflexivity.
  - exists a, lf, c1, c2. split; assumption.
Defined.

(** ** The 4 by 4 scenario *)

(** C3, as the code has it.  In a 4 by 4 bin [Insert(3, 3)] returns
    [Rect{0, 0, 3, 3}]; the remainders are equal, so the split is the
    vertical one and the right child is the leaf [(3, 0, 1, 4)]; a following
    [Insert(1, 4)] therefore succeeds and returns [Rect{3, 0, 1, 4}]; and a
    following [Insert(1, 1)] succeeds, as it also does right after
    [Insert(3, 3)]. *)
Theorem scenario_4x4 :
  let p0 := New 4 4 in
  let p1 := fst (Insert p0 3 3) in
  let p2 := fst (Insert p1 1 4) in
  snd (Insert p0 3 3) = (mkRect 0 0 3 3, None) /\
  root p1 = Node (mkRect 0 0 3 3)
                 (Some (leaf (mkRect 0 3 3 1))) (Some (leaf (mkRect 3 0 1 4))) /\
  snd (Insert p1 1 4) = (mkRect 3 0 1 4, None) /\
  snd (Insert p2 1 1) = (mkRect 0 3 1 1, None) /\
  snd (Insert p1 1 1) = (mkRect 0 3 1 1, None).
Proof. repeat split. Qed.

(** C3, as stated, fails: after [Insert(3, 3)] in a 4 by 4 bin,
    [Insert(1, 4)] does not return the no-space error. *)
Lemma scenario_4x4_insert_1_4_succeeds :
  ~ (snd (Insert (New 4 4) 3 3) = (mkRect 0 0 3 3, None) /\
     snd (snd (Insert (fst (Insert (New 4 4) 3 3)) 1 4)) = Some ErrNoMoreSpace).
Proof. intros [_ H]. vm_compute in H. discriminate. Qed.

(** ** Bins without area *)

(** C4, as stated, fails: in a 0 by 0 bin [Insert(0, 0)] returns no error. *)
Lemma degenerate_bin_admits_empty :
  0 * 0 = 0 /\ Insert (New 0 0) 0 0
  = ({| root := Node (mkRect 0 0 0 0)
                     (Some (leaf (mkRect 0 0 0 0))) (Some (leaf (mkRect 0 0 0 0)));
        binWidth := 0; binHeight := 0 |},
     (mkRect 0 0 0 0, None)).
Proof. split; reflexivity. Qed.

(** ** The tree is a partition of the bin *)

Ltac unfold_geometry :=
  unfold region_ok, within, overlap, has_cell, area,
         row_rest, below_full, below_rest, right_full in *;
  simpl in *.

(** Away from the wrap-around the split is the one of the four remainders. *)
Lemma split_exact (b : Rect) (w h : Z) :
  region_ok b -> 0 <= w <= Width b -> 0 <= h <= Height b ->
  split b w h =
  if Width b - w <? Height b - h then
    Node (mkRect (X b) (Y b) w h)
         (Some (leaf (row_rest b w h))) (Some (leaf (below_full b w h)))
  else
    Node (mkRect (X b) (Y b) w h)
         (Some (leaf (below_rest b w h))) (Some (leaf (right_full b w h))).
Proof.
  intros Hb Hw Hh. unfold split, row_rest, below_full, below_rest, right_full.
  unfold region_ok in Hb.
  rewrite !sub_exact, !add_exact by (apply nonneg_in_range; lia).
  reflexivity.
Qed.

Lemma split_tiles (b : Rect) (w h : Z) :
  region_ok b -> 0 <= w <= Width b -> 0 <= h <= Height b ->
  tiles (split b w h) b.
Proof.
  intros Hb Hw Hh. rewrite split_exact by assumption.
  destruct (_ <? _); simpl; repeat split; try lia; auto.
Qed.

Lemma tiles_replace (n : node) :
  forall b a lf m,
    tiles n b -> In (a, lf) (leaves n) -> tiles m lf -> tiles (replace n a m) b.
Proof.
  induction n as [r l rt IHl IHr] using node_ind. intros b a lf m Ht Hin Hm.
  destruct l as [ln|], rt as [rn|]; simpl in Ht; try contradiction;
    simpl in IHl, IHr, Hin.
  - destruct Ht as [HX [HY [HW [HH Hc]]]].
    apply in_app_or in Hin. destruct Hin as [Hin|Hin];
      apply in_map_iff in Hin; destruct Hin as [[q x] [E Hin]];
      inversion E; subst; simpl; repeat split; try lia.
    + destruct Hc as [[H1 H2]|[H1 H2]]; [left|right]; split; eauto.
    + destruct Hc as [[H1 H2]|[H1 H2]]; [left|right]; split; eauto.
  - destruct Hin as [E|[]]. inversion E; subst. exact Hm.
Qed.

(** Every rectangle of a partition of [b], occupied or free, lies within [b]
    and has non-negative sides. *)
Lemma tiles_within (n : node) :
  forall b r,
    tiles n b -> 0 <= Width b -> 0 <= Height b ->
    In r (occupied n) \/ In r (map snd (leaves n)) ->
    within r b /\ 0 <= Width r /\ 0 <= Height r.
Proof.
  induction n as [r0 l rt IHl IHr] using node_ind. intros b r Ht HWb HHb Hin.
  destruct l as [ln|], rt as [rn|]; simpl in Ht; try contradiction;
    simpl in IHl, IHr, Hin.
  - destruct Ht as [HX [HY [HW [HH Hc]]]].
    assert (Hcases : r = r0 \/
                     (In r (occupied ln) \/ In r (map snd (leaves ln))) \/
                     (In r (occupied rn) \/ In r (map snd (leaves rn)))).
    { destruct Hin as [[E|Hin]|Hin]; auto.
      - apply in_app_or in Hin. tauto.
      - rewrite map_app, !map_map in Hin. simpl in Hin.
        apply in_app_or in Hin. tauto. }
    destruct Hcases as [E|[Hl|Hr]].
    + subst r0. unfold within. lia.
    + destruct Hc as [[H1 H2]|[H1 H2]];
        destruct (IHl _ r H1) as [Hwi Hnn]; simpl; try lia; auto;
        (split; [|exact Hnn]); unfold_geometry; lia.
    + destruct Hc as [[H1 H2]|[H1 H2]];
        destruct (IHr _ r H2) as [Hwi Hnn]; simpl; try lia; auto;
        (split; [|exact Hnn]); unfold_geometry; lia.
  - destruct Hin as [[]|[E|[]]]. subst r0 r. unfold within. lia.
Qed.

Lemma within_region_ok (r b : Rect) :
  region_ok b -> within r b -> 0 <= Width r -> 0 <= Height r -> region_ok r.
Proof. unfold_geometry. lia. Qed.

(** In a partition no occupied rectangle overlaps a free one. *)
Lemma tiles_occupied_free (n : node) :
  forall b r lf,
    tiles n b -> 0 <= Width b -> 0 <= Height b ->
    In r (occupied n) -> In lf (map snd (leaves n)) -> ~ overlap r lf.
Proof.
  induction n as [r0 l rt IHl IHr] using node_ind. intros b r lf Ht HWb HHb Hr Hlf.
  destruct l as [ln|], rt as [rn|]; simpl in Ht; try contradiction;
    simpl in IHl, IHr, Hr, Hlf; try contradiction.
  destruct Ht as [HX [HY [HW [HH Hc]]]].
  rewrite map_app, !map_map in Hlf. simpl in Hlf.
  apply in_app_or in Hlf.
  assert (Hr' : r = r0 \/ In r (occupied ln) \/ In r (occupied rn)).
  { destruct Hr as [E|Hr]; auto. apply in_app_or in Hr. tauto. }
  clear Hr.
  destruct Hc as [[H1 H2]|[H1 H2]].
  - assert (W1 := fun x Hx => tiles_within ln _ x H1 ltac:(simpl; lia) ltac:(simpl; lia) Hx).
    assert (W2 := fun x Hx => tiles_within rn _ x H2 ltac:(simpl; lia) ltac:(simpl; lia) Hx).
    destruct Hr' as [E|[Hr|Hr]], Hlf as [Hlf|Hlf].
    + subst r0. specialize (W1 lf (or_intror Hlf)). unfold_geometry. lia.
    + subst r0. specialize (W2 lf (or_intror Hlf)). unfold_geometry. lia.
    + apply (IHl _ r lf H1); simpl; auto; lia.
    + specialize (W1 r (or_introl Hr)). specialize (W2 lf (or_intror Hlf)).
      unfold_geometry. lia.
    + specialize (W2 r (or_introl Hr)). specialize (W1 lf (or_intror Hlf)).
      unfold_geometry. lia.
    + apply (IHr _ r lf H2); simpl; auto; lia.
  - assert (W1 := fun x Hx => tiles_within ln _ x H1 ltac:(simpl; lia) ltac:(simpl; lia) Hx).
    assert (W2 := fun x Hx => tiles_within rn _ x H2 ltac:(simpl; lia) ltac:(simpl; lia) Hx).
    destruct Hr' as [E|[Hr|Hr]], Hlf as [Hlf|Hlf].
    + subst r0. specialize (W1 lf (or_intror Hlf)). unfold_geometry. lia.
    + subst r0. specialize (W2 lf (or_intror Hlf)). unfold_geometry. lia.
    + apply (IHl _ r lf H1); simpl; auto; lia.
    + specialize (W1 r (or_introl Hr)). specialize (W2 lf (or_intror Hlf)).
      unfold_geometry. lia.
    + specialize (W2 r (or_introl Hr)). specialize (W1 lf (or_intror Hlf)).
      unfold_geometry. lia.
    + apply (IHr _ r lf H2); simpl; auto; lia.
Qed.

(** ** Area accounting *)

Lemma sum_areas_app (l1 l2 : list Rect) :
  sum_areas (l1 ++ l2) = sum_areas l1 + sum_areas l2.
Proof. induction l1 as [|a l1 IH]; simpl; [reflexivity | rewrite IH; lia]. Qed.

Lemma sum_areas_perm (l1 l2 : list Rect) :
  Permutation l1 l2 -> sum_areas l1 = sum_areas l2.
Proof. induction 1; simpl; lia. Qed.

Lemma sum_areas_nonneg (l : list Rect) :
  (forall r, In r l -> 0 <= Width r /\ 0 <= Height r) -> 0 <= sum_areas l.
Proof.
  induction l as [|a l IH]; simpl; intros H; [lia|].
  assert (0 <= area a) by (apply Z.mul_nonneg_nonneg; apply (H a); auto).
  assert (0 <= sum_areas l) by (apply IH; auto).
  lia.
Qed.

Lemma sum_areas_zero (l : list Rect) :
  (forall r, In r l -> area r = 0) -> sum_areas l = 0.
Proof.
  induction l as [|a l IH]; simpl; intros H; [reflexivity|].
  rewrite (H a), IH; auto.
Qed.

Lemma snd_under (d : dir) (l : list (path * Rect)) :
  map snd (map (under d) l) = map snd l.
Proof. rewrite map_map. reflexivity. Qed.

Lemma occupied_replace (n : node) :
  forall a lf m,
    In (a, lf) (leaves n) ->
    Permutation (occupied (replace n a m)) (occupied m ++ occupied n).
Proof.
  induction n as [r l rt IHl IHr] using node_ind. intros a lf m Hin.
  destruct l as [ln|], rt as [rn|]; simpl in IHl, IHr, Hin.
  - apply in_app_or in Hin. destruct Hin as [Hin|Hin];
      apply in_map_iff in Hin; destruct Hin as [[q x] [E Hin]];
      inversion E; subst; simpl.
    + rewrite <- Permutation_middle. apply perm_skip.
      rewrite app_assoc. apply Permutation_app_tail. eauto.
    + rewrite <- Permutation_middle. apply perm_skip.
      rewrite (Permutation_app_swap_app (occupied m)).
      apply Permutation_app_head. eauto.
  - rewrite app_nil_r in Hin.
    apply in_map_iff in Hin; destruct Hin as [[q x] [E Hin]];
      inversion E; subst; simpl.
    rewrite <- Permutation_middle. apply perm_skip.
    rewrite !app_nil_r. eauto.
  - apply in_map_iff in Hin; destruct Hin as [[q x] [E Hin]];
      inversion E; subst; simpl.
    rewrite <- Permutation_middle. apply perm_skip. eauto.
  - destruct Hin as [E|[]]. inversion E; subst. simpl.
    rewrite app_nil_r. apply Permutation_refl.
Qed.

(** The occupied and the free area of a partition of [b] add up to the area
    of [b]. *)
Lemma tiles_area (n : node) :
  forall b, tiles n b -> used n + free n = area b.
Proof.
  induction n as [r l rt IHl IHr] using node_ind. intros b Ht.
  destruct l as [ln|], rt as [rn|]; simpl in Ht; try contradiction;
    simpl in IHl, IHr.
  - destruct Ht as [HX [HY [HW [HH Hc]]]].
    unfold used, free in *. simpl.
    rewrite map_app, !snd_under, !sum_areas_app.
    destruct Hc as [[H1 H2]|[H1 H2]];
      specialize (IHl _ H1); specialize (IHr _ H2);
      unfold_geometry; nia.
  - subst r. unfold used, free. simpl. lia.
Qed.

Lemma tiles_used_free_nonneg (n : node) (b : Rect) :
  tiles n b -> 0 <= Width b -> 0 <= Height b -> 0 <= used n /\ 0 <= free n.
Proof.
  intros Ht HW HH.
  split; apply sum_areas_nonneg; intros r Hr;
    eapply tiles_within; eauto.
Qed.

Lemma tiles_used_le (n : node) (b : Rect) :
  tiles n b -> 0 <= Width b -> 0 <= Height b -> 0 <= used n <= area b.
Proof.
  intros Ht HW HH.
  destruct (tiles_used_free_nonneg n b Ht HW HH).
  pose proof (tiles_area n b Ht). lia.
Qed.

Lemma wrap_add_l (a b : Z) : GoInt.wrap (GoInt.wrap a + b) = GoInt.wrap (a + b).
Proof.
  unfold GoInt.wrap. f_equal.
  replace ((a + 9223372036854775808) mod 18446744073709551616
           - 9223372036854775808 + b + 9223372036854775808)
    with ((a + 9223372036854775808) mod 18446744073709551616 + b) by lia.
  rewrite Z.add_mod_idemp_l by lia. f_equal. lia.
Qed.

Lemma wrap_add_r (a b : Z) : GoInt.wrap (a + GoInt.wrap b) = GoInt.wrap (a + b).
Proof.
  unfold GoInt.wrap. f_equal.
  replace (a + ((b + 9223372036854775808) mod 18446744073709551616
                - 9223372036854775808) + 9223372036854775808)
    with (a + (b + 9223372036854775808) mod 18446744073709551616) by lia.
  rewrite Z.add_mod_idemp_r by lia. f_equal. lia.
Qed.

Lemma wrap_add_both (a b : Z) :
  GoInt.wrap (GoInt.wrap a + GoInt.wrap b) = GoInt.wrap (a + b).
Proof. rewrite wrap_add_l, wrap_add_r. reflexivity. Qed.

(** [usedArea] is the sum of the areas of the interior nodes' rectangles,
    reduced to an [int]; leaves add nothing. *)
Lemma usedArea_wrap_sum (n : node) : usedArea n = GoInt.wrap (used n).
Proof.
  induction n as [r l rt IHl IHr] using node_ind.
  unfold used in *.
  destruct l as [ln|], rt as [rn|]; simpl in IHl, IHr; simpl;
    rewrite ?app_nil_r, ?sum_areas_app, ?IHl, ?IHr;
    unfold GoInt.mul, GoInt.add; fold (area r).
  - rewrite (wrap_add_both (area r)), wrap_add_both. f_equal. lia.
  - rewrite wrap_add_both. reflexivity.
  - rewrite wrap_add_both. reflexivity.
  - reflexivity.
Qed.

(** Where the area of the region fits an [int], [usedArea] does not wrap. *)
Lemma usedArea_exact (n : node) :
  forall b,
    tiles n b -> 0 <= Width b -> 0 <= Height b -> area b <= GoInt.maxInt ->
    usedArea n = used n.
Proof.
  induction n as [r l rt IHl IHr] using node_ind. intros b Ht HWb HHb Hmax.
  destruct l as [ln|], rt as [rn|]; simpl in Ht; try contradiction;
    simpl in IHl, IHr; [|reflexivity].
  destruct Ht as [HX [HY [HW [HH Hc]]]].
  assert (Hr : 0 <= area r) by (apply Z.mul_nonneg_nonneg; lia).
  assert (Hsub : exists bl br,
             tiles ln bl /\ tiles rn br /\
             0 <= Width bl /\ 0 <= Height bl /\ 0 <= Width br /\ 0 <= Height br /\
             area r + area bl + area br = area b).
  { destruct Hc as [[H1 H2]|[H1 H2]]; do 2 eexists;
      (split; [exact H1|]); (split; [exact H2|]); unfold_geometry;
      repeat split; nia. }
  destruct Hsub as [bl [br [H1 [H2 [Hl1 [Hl2 [Hr1 [Hr2 Hsum]]]]]]]].
  assert (0 <= area bl) by (apply Z.mul_nonneg_nonneg; lia).
  assert (0 <= area br) by (apply Z.mul_nonneg_nonneg; lia).
  pose proof (tiles_used_le ln bl H1 Hl1 Hl2).
  pose proof (tiles_used_le rn br H2 Hr1 Hr2).
  simpl. rewrite (IHl bl), (IHr br) by (auto; lia).
  unfold used at 3. simpl. rewrite sum_areas_app. fold (used ln) (used rn).
  fold (area r).
  unfold area in *.
  rewrite mul_exact by (apply nonneg_in_range; lia).
  rewrite (add_exact (Width r * Height r)) by (apply nonneg_in_range; lia).
  rewrite add_exact by (apply nonneg_in_range; lia).
  lia.
Qed.

(** ** One call of [Insert] on a partition *)

Lemma fits_true (w h : Z) (r : Rect) :
  fits w h r = true <-> w <= Width r /\ h <= Height r.
Proof.
  unfold fits. rewrite negb_true_iff, orb_false_iff, !Z.gtb_ltb, !Z.ltb_ge.
  tauto.
Qed.

Lemma occupied_split (r : Rect) (w h : Z) :
  occupied (split r w h) = [mkRect (X r) (Y r) w h].
Proof. unfold split. destruct (_ <? _); reflexivity. Qed.

Lemma leaves_In_snd (n : node) (a : path) (lf : Rect) :
  In (a, lf) (leaves n) -> In lf (map snd (leaves n)).
Proof. intros H. apply (in_map snd) in H. exact H. Qed.

Lemma Insert_on_tiles (p : Packer) (b : Rect) (w h : Z) :
  tiles (root p) b -> region_ok b -> 0 <= w -> 0 <= h ->
  forall p1 r e,
    Insert p w h = (p1, (r, e)) ->
    tiles (root p1) b /\
    binWidth p1 = binWidth p /\ binHeight p1 = binHeight p /\
    match e with
    | None =>
      within r b /\ Width r = w /\ Height r = h /\
      (forall r', In r' (occupied (root p)) -> ~ overlap r' r) /\
      Permutation (occupied (root p1)) (r :: occupied (root p))
    | Some _ => p1 = p
    end.
Proof.
  intros Ht Hb Hw Hh p1 r e. rewrite Insert_first_fit.
  destruct (first_fit (root p) w h) as [[a lf]|] eqn:Hff;
    intros H; inversion H; subst; clear H; simpl; [|auto].
  apply first_fit_In in Hff. destruct Hff as [Hin Hfit].
  apply fits_true in Hfit.
  assert (HWb : 0 <= Width b) by (unfold region_ok in Hb; lia).
  assert (HHb : 0 <= Height b) by (unfold region_ok in Hb; lia).
  destruct (tiles_within (root p) b lf Ht HWb HHb
              (or_intror (leaves_In_snd _ _ _ Hin))) as [Hwi [Hlw Hlh]].
  pose proof (within_region_ok lf b Hb Hwi Hlw Hlh) as Hlf.
  repeat split.
  - eapply tiles_replace; eauto. apply split_tiles; auto; lia.
  - unfold_geometry; lia.
  - unfold_geometry; lia.
  - unfold_geometry; lia.
  - unfold_geometry; lia.
  - intros r' Hr' Hov.
    apply (tiles_occupied_free (root p) b r' lf Ht HWb HHb Hr'
                               (leaves_In_snd _ _ _ Hin)).
    unfold_geometry. lia.
  - rewrite (occupied_replace _ _ _ _ Hin), occupied_split. reflexivity.
Qed.

(** ** A sequence of calls of [Insert] on a partition *)

Lemma inserts_cons (p : Packer) (w h : Z) (rest : list (Z * Z)) :
  inserts p ((w, h) :: rest)
  = (fst (inserts (fst (Insert p w h)) rest),
     snd (Insert p w h) :: snd (inserts (fst (Insert p w h)) rest)).
Proof.
  simpl. destruct (Insert p w h) as [p1 res]. simpl.
  destruct (inserts p1 rest) as [p2 out]. reflexivity.
Qed.

Lemma inserts_on_tiles (reqs : list (Z * Z)) :
  forall p b,
    tiles (root p) b -> region_ok b -> sizes_ok reqs ->
    let p' := fst (inserts p reqs) in
    let rs := placed (snd (inserts p reqs)) in
    tiles (root p') b /\
    binWidth p' = binWidth p /\ binHeight p' = binHeight p /\
    Forall (fun r => within r b) rs /\
    ForallOrdPairs (fun x y => ~ overlap x y) rs /\
    (forall r' r, In r' (occupied (root p)) -> In r rs -> ~ overlap r' r) /\
    Permutation (occupied (root p')) (rs ++ occupied (root p)).
Proof.
  induction reqs as [|[w h] rest IH]; intros p b Ht Hb Hs.
  - simpl. repeat split; auto using FOP_nil, Permutation_refl.
  - inversion Hs as [|x l [Hw Hh] Hrest]; subst. simpl in Hw, Hh.
    rewrite inserts_cons. simpl fst. simpl snd.
    destruct (Insert p w h) as [p1 [r e]] eqn:HI. simpl fst. simpl snd.
    destruct (Insert_on_tiles p b w h Ht Hb Hw Hh p1 r e HI)
      as [Ht1 [HW1 [HH1 He]]].
    destruct (IH p1 b Ht1 Hb Hrest) as [Ht2 [HW2 [HH2 [Hin2 [Hpw2 [Hov2 Hpm2]]]]]].
    destruct e as [e|].
    + subst p1. simpl. repeat split; auto.
    + destruct He as [Hwi [_ [_ [Hov Hpm]]]]. simpl.
      repeat split; try congruence.
      * constructor; assumption.
      * constructor; [|assumption].
        apply Forall_forall. intros x Hx.
        apply (Hov2 r x); [|exact Hx].
        apply (Permutation_in _ (Permutation_sym Hpm)). left. reflexivity.
      * intros r' x Hr' [E|Hx].
        -- subst x. auto.
        -- apply (Hov2 r' x); [|exact Hx].
           apply (Permutation_in _ (Permutation_sym Hpm)). right. exact Hr'.
      * rewrite Hpm2, Hpm. symmetry. apply Permutation_middle.
Qed.

Lemma New_tiles (w h : Z) : tiles (root (New w h)) (mkRect 0 0 w h).
Proof. reflexivity. Qed.

Lemma bin_region_ok (w h : Z) :
  0 <= w <= GoInt.maxInt -> 0 <= h <= GoInt.maxInt -> region_ok (mkRect 0 0 w h).
Proof. unfold region_ok. simpl. lia. Qed.

Lemma overlap_sym (a b : Rect) : overlap a b -> overlap b a.
Proof. unfold overlap. tauto. Qed.

Lemma ordered_pairs_nth (rs : list Rect) :
  ForallOrdPairs (fun x y => ~ overlap x y) rs ->
  forall i j a b, (i < j)%nat -> nth_error rs i = Some a -> nth_error rs j = Some b ->
                  ~ overlap a b.
Proof.
  induction 1 as [|x l Hx Hl IH]; intros i j a b Hij Hi Hj.
  - destruct i; discriminate.
  - destruct j as [|j]; [lia|]. simpl in Hj.
    destruct i as [|i]; simpl in Hi.
    + inversion Hi; subst x.
      apply nth_error_In in Hj.
      rewrite Forall_forall in Hx. auto.
    + apply (IH i j); auto. lia.
Qed.

Lemma ordered_pairs_pairwise (rs : list Rect) :
  ForallOrdPairs (fun x y => ~ overlap x y) rs -> pairwise_disjoint rs.
Proof.
  intros H i j a b Hij Hi Hj.
  destruct (Nat.lt_ge_cases i j) as [Hlt|Hge].
  - eapply ordered_pairs_nth; eauto.
  - intros Hov. apply overlap_sym in Hov. revert Hov.
    apply (ordered_pairs_nth rs H j i); auto. lia.
Qed.

(** ** No overlap *)

(** C2. In a bin made by [New] and used through [Insert] only, with
    non-negative sizes throughout, the rectangles returned by the calls that
    succeed are pairwise non-overlapping and each lies fully within the bin
    [(0, 0, binWidth, binHeight)]. *)
Theorem placed_disjoint_within_bin (W H : Z) (reqs : list (Z * Z)) :
  0 <= W <= GoInt.maxInt -> 0 <= H <= GoInt.maxInt -> sizes_ok reqs ->
  let rs := placed (snd (inserts (New W H) reqs)) in
  pairwise_disjoint rs /\ Forall (fun r => within r (mkRect 0 0 W H)) rs.
Proof.
  intros HW HH Hs.
  destruct (inserts_on_tiles reqs (New W H) (mkRect 0 0 W H)
              (New_tiles W H) (bin_region_ok W H HW HH) Hs)
    as [_ [_ [_ [Hin [Hpw _]]]]].
  split; [apply ordered_pairs_pairwise; exact Hpw | exact Hin].
Qed.

Lemma placed_disjoint_within_bin_witness :
  let rs := placed (snd (inserts (New 4 4) [(3, 3); (5, 1); (1, 4); (1, 1)])) in
  rs = [mkRect 0 0 3 3; mkRect 3 0 1 4; mkRect 0 3 1 1] /\
  pairwise_disjoint rs /\ Forall (fun r => within r (mkRect 0 0 4 4)) rs.
Proof.
  split; [reflexivity|].
  apply (placed_disjoint_within_bin 4 4 [(3, 3); (5, 1); (1, 4); (1, 1)]).
  - unfold GoInt.maxInt. lia.
  - unfold GoInt.maxInt. lia.
  - repeat constructor; simpl; lia.
Defined.

(** ** Bins without area, continued *)

Lemma find_all_false {A} (f : A -> bool) (l : list A) :
  (forall x, In x l -> f x = false) -> find f l = None.
Proof.
  induction l as [|a l IH]; intros H; simpl; [reflexivity|].
  rewrite (H a) by (left; reflexivity). apply IH. intros x Hx. apply H. right. exact Hx.
Qed.

(** C4, as the code has it.  In a bin without area (non-negative sides with
    [w * h = 0]) every call of [Insert] with a positive width and a positive
    height fails with the no-space error, also after any calls of [Insert]
    with non-negative sizes.  (A request with a zero side can succeed.) *)
Theorem degenerate_bin_rejects_positive
        (W H : Z) (reqs : list (Z * Z)) (width height : Z) :
  0 <= W <= GoInt.maxInt -> 0 <= H <= GoInt.maxInt -> W * H = 0 ->
  sizes_ok reqs -> 0 < width -> 0 < height ->
  snd (Insert (fst (inserts (New W H) reqs)) width height)
  = (mkRect 0 0 0 0, Some ErrNoMoreSpace).
Proof.
  intros HW HH Hz Hs Hw Hh.
  destruct (inserts_on_tiles reqs (New W H) (mkRect 0 0 W H)
              (New_tiles W H) (bin_region_ok W H HW HH) Hs)
    as [Ht _].
  rewrite Insert_first_fit.
  replace (first_fit (root (fst (inserts (New W H) reqs))) width height)
    with (@None (path * Rect)); [reflexivity|].
  symmetry. apply find_all_false. intros [a lf] Hin. simpl.
  destruct (tiles_within _ _ lf Ht) as [Hwi [Hlw Hlh]]; simpl; try lia.
  { right. eapply leaves_In_snd. exact Hin. }
  destruct (fits width height lf) eqn:Hfit; [|reflexivity].
  apply fits_true in Hfit. unfold within in Hwi. simpl in Hwi. nia.
Qed.

Lemma degenerate_bin_rejects_positive_witness :
  snd (Insert (fst (inserts (New 0 5) [(0, 3); (0, 0)])) 1 1)
  = (mkRect 0 0 0 0, Some ErrNoMoreSpace).
Proof.
  apply (degenerate_bin_rejects_positive 0 5 [(0, 3); (0, 0)] 1 1).
  - unfold GoInt.maxInt. lia.
  - unfold GoInt.maxInt. lia.
  - reflexivity.
  - repeat constructor; simpl; lia.
  - lia.
  - lia.
Defined.

(** ** Occupancy *)

Lemma ratio_le (u1 u2 t : Z) :
  0 < t -> u1 <= u2 -> (inject_Z u1 / inject_Z t <= inject_Z u2 / inject_Z t)%Q.
Proof.
  intros Ht Hu. unfold Qdiv. apply Qmult_le_compat_r.
  - rewrite <- Zle_Qle. exact Hu.
  - apply Qinv_le_0_compat. change 0%Q with (inject_Z 0).
    rewrite <- Zle_Qle. lia.
Qed.

Lemma ratio_one (t : Z) : 0 < t -> (inject_Z t / inject_Z t == 1)%Q.
Proof.
  intros Ht. unfold Qdiv. apply Qmult_inv_r.
  unfold Qeq. simpl. lia.
Qed.

Lemma ratio_zero (t : Z) : (inject_Z 0 / inject_Z t == 0)%Q.
Proof. unfold Qdiv. apply Qmult_0_l. Qed.

(** The occupancy of a packer whose tree is a partition of its bin, as a
    quotient of areas without wrap-around. *)
Lemma Occupancy_on_tiles (p : Packer) :
  tiles (root p) (bin p) ->
  0 <= binWidth p -> 0 <= binHeight p ->
  binWidth p * binHeight p <= GoInt.maxInt ->
  Occupancy p
  = (inject_Z (used (root p)) / inject_Z (binWidth p * binHeight p))%Q.
Proof.
  intros Ht HW HH Hmax. unfold Occupancy.
  rewrite (usedArea_exact (root p) (bin p)) by assumption.
  rewrite mul_exact; [reflexivity|].
  apply nonneg_in_range. split; [apply Z.mul_nonneg_nonneg|]; assumption.
Qed.

(** When the occupied rectangles leave no cell of the region uncovered, the
    leaves have no area left. *)
Lemma covered_free_zero (n : node) (b : Rect) :
  tiles n b -> 0 <= Width b -> 0 <= Height b ->
  (forall i j, has_cell b i j -> exists r, In r (occupied n) /\ has_cell r i j) ->
  free n = 0.
Proof.
  intros Ht HW HH Hcov. apply sum_areas_zero. intros lf Hlf.
  destruct (tiles_within n b lf Ht HW HH (or_intror Hlf)) as [Hwi [Hlw Hlh]].
  destruct (Z.eq_dec (Width lf) 0) as [E|Hnw]; [unfold area; rewrite E; lia|].
  destruct (Z.eq_dec (Height lf) 0) as [E|Hnh]; [unfold area; rewrite E; lia|].
  exfalso.
  destruct (Hcov (X lf) (Y lf)) as [r [Hr Hc]].
  { unfold_geometry. lia. }
  apply (tiles_occupied_free n b r lf Ht HW HH Hr Hlf).
  unfold_geometry. lia.
Qed.

(** C9. In a bin of positive area made by [New] and used through [Insert]
    only, with non-negative sizes and a bin area that fits an [int]: the
    occupancy is 0 as long as no call has succeeded, it does not decrease
    across a call of [Insert], and it is 1 once the rectangles returned by
    the successful calls cover the bin with no remainder. *)
Theorem Occupancy_monotone (W H : Z) (reqs : list (Z * Z)) :
  0 < W -> 0 < H -> W * H <= GoInt.maxInt -> sizes_ok reqs ->
  let p := fst (inserts (New W H) reqs) in
  let rs := placed (snd (inserts (New W H) reqs)) in
  (Occupancy (New W H) == 0)%Q /\
  (rs = [] -> (Occupancy p == 0)%Q) /\
  (forall width height p1 r,
      0 <= width -> 0 <= height ->
      Insert p width height = (p1, (r, None)) ->
      (Occupancy p <= Occupancy p1)%Q) /\
  (cover_bin rs W H -> (Occupancy p == 1)%Q).
Proof.
  intros HW HH Hmax Hs p rs.
  assert (HWm : 0 <= W <= GoInt.maxInt) by nia.
  assert (HHm : 0 <= H <= GoInt.maxInt) by nia.
  pose proof (bin_region_ok W H HWm HHm) as Hb.
  destruct (inserts_on_tiles reqs (New W H) (mkRect 0 0 W H)
              (New_tiles W H) Hb Hs)
    as [Ht [HbW [HbH [_ [_ [_ Hpm]]]]]].
  fold p in Ht, HbW, HbH, Hpm. fold rs in Hpm. simpl in HbW, HbH, Hpm.
  rewrite app_nil_r in Hpm.
  assert (Hbin : bin p = mkRect 0 0 W H) by (unfold bin; congruence).
  assert (Hocc : Occupancy p = (inject_Z (used (root p)) / inject_Z (W * H))%Q).
  { rewrite Occupancy_on_tiles; rewrite ?Hbin, ?HbW, ?HbH; auto; lia. }
  split; [|split; [|split]].
  - unfold Occupancy. simpl. apply ratio_zero.
  - intros Hrs. rewrite Hocc. unfold used.
    rewrite (sum_areas_perm _ _ Hpm), Hrs. apply ratio_zero.
  - intros width height p1 r Hw Hh HI.
    destruct (Insert_on_tiles p (mkRect 0 0 W H) width height Ht Hb Hw Hh p1 r None HI)
      as [Ht1 [HW1 [HH1 [_ [Hrw [Hrh [_ Hpm1]]]]]]].
    rewrite Hocc, Occupancy_on_tiles;
      rewrite ?HW1, ?HH1, ?HbW, ?HbH; try lia;
      [|unfold bin; rewrite HW1, HH1, HbW, HbH; exact Ht1].
    apply ratio_le; [nia|].
    unfold used. rewrite (sum_areas_perm _ _ Hpm1). simpl.
    assert (0 <= area r) by (unfold area; rewrite Hrw, Hrh; nia).
    lia.
  - intros Hcov. rewrite Hocc.
    assert (Hfree : free (root p) = 0).
    { apply (covered_free_zero (root p) (mkRect 0 0 W H)); simpl; try lia; auto.
      intros i j [Hi Hj]. simpl in Hi, Hj.
      destruct (Hcov i j) as [r [Hr Hc]]; try lia.
      exists r. split; [|exact Hc].
      apply (Permutation_in _ (Permutation_sym Hpm) Hr). }
    pose proof (tiles_area (root p) _ Ht) as Ha. unfold area in Ha. simpl in Ha.
    replace (used (root p)) with (W * H) by lia.
    apply ratio_one. nia.
Qed.

Lemma Occupancy_monotone_witness :
  Qeq (Occupancy (New 4 4)) 0%Q /\
  Qle (Occupancy (fst (inserts (New 4 4) [(3, 3)])))
      (Occupancy (fst (Insert (fst (inserts (New 4 4) [(3, 3)])) 1 4))) /\
  placed (snd (inserts (New 2 2) [(2, 1); (2, 1)]))
  = [mkRect 0 0 2 1; mkRect 0 1 2 1] /\
  Qeq (Occupancy (fst (inserts (New 2 2) [(2, 1); (2, 1)]))) 1%Q.
Proof.
  destruct (Occupancy_monotone 4 4 [(3, 3)]) as [H0 [_ [Hm _]]].
  - lia.
  - lia.
  - unfold GoInt.maxInt. lia.
  - repeat constructor; simpl; lia.
  - destruct (Occupancy_monotone 2 2 [(2, 1); (2, 1)]) as [_ [_ [_ Hc]]].
    + lia.
    + lia.
    + unfold GoInt.maxInt. lia.
    + repeat constructor; simpl; lia.
    + split; [exact H0|]. split; [|split; [reflexivity|]].
      * apply (Hm 1 4 (fst (Insert (fst (inserts (New 4 4) [(3, 3)])) 1 4))
                  (mkRect 3 0 1 4)); [lia | lia | reflexivity].
      * apply Hc. intros i j Hi Hj.
        destruct (Z_lt_dec j 1) as [Hj1|Hj1].
        -- exists (mkRect 0 0 2 1). split; [left; reflexivity|].
           unfold has_cell. simpl. lia.
        -- exists (mkRect 0 1 2 1). split; [right; left; reflexivity|].
           unfold has_cell. simpl. lia.
Defined.

(** Without [Enlarge] the occupancy is a fraction of the bin. *)
Lemma Occupancy_unit_interval (W H : Z) (reqs : list (Z * Z)) :
  0 < W -> 0 < H -> W * H <= GoInt.maxInt -> sizes_ok reqs ->
  (0 <= Occupancy (fst (inserts (New W H) reqs)) <= 1)%Q.
Proof.
  intros HW HH Hmax Hs.
  assert (HWm : 0 <= W <= GoInt.maxInt) by nia.
  assert (HHm : 0 <= H <= GoInt.maxInt) by nia.
  destruct (inserts_on_tiles reqs (New W H) (mkRect 0 0 W H)
              (New_tiles W H) (bin_region_ok W H HWm HHm) Hs)
    as [Ht [HbW [HbH _]]].
  simpl in HbW, HbH.
  rewrite Occupancy_on_tiles;
    rewrite ?HbW, ?HbH; try lia;
    [|unfold bin; rewrite HbW, HbH; exact Ht].
  pose proof (tiles_used_le _ _ Ht) as Hu. unfold area in Hu. simpl in Hu.
  split.
  - rewrite <- (ratio_zero (W * H)). apply ratio_le; [nia | lia].
  - rewrite <- (ratio_one (W * H)) by nia. apply ratio_le; [nia | lia].
Qed.

(** C1 fails on the code once [Enlarge] has been called.  [Enlarge] gives the
    new root the rectangle of the whole new bin, so [usedArea] counts the
    whole new bin as occupied, free strips included: right after
    [Enlarge(20, 20)] on an empty 5 by 5 bin the occupancy is 1, and after a
    following [Insert(15, 15)] it is 625/400. *)
Theorem Occupancy_after_Enlarge :
  let p1 := do_calls (New 5 5) [CallEnlarge 20 20] in
  let p2 := do_calls (New 5 5) [CallEnlarge 20 20; CallInsert 15 15] in
  snd (Enlarge (New 5 5) 20 20) = None /\
  snd (Insert p1 15 15) = (mkRect 0 5 15 15, None) /\
  usedArea (root p1) = 400 /\ (Occupancy p1 == 1)%Q /\
  usedArea (root p2) = 625 /\ (Occupancy p2 == 25 # 16)%Q /\
  ~ (Occupancy p2 <= 1)%Q.
Proof.
  repeat split.
  intros Hle. unfold Qle in Hle. vm_compute in Hle. apply Hle. reflexivity.
Qed.

(** * Further properties *)

(** ** [insert] on a partition, at the level of nodes *)

Lemma insert_on_tiles (n : node) (b : Rect) (w h : Z) :
  tiles n b -> region_ok b -> 0 <= w -> 0 <= h ->
  forall n1 res err,
    insert n w h = (n1, (res, err)) ->
    tiles n1 b /\
    match res with
    | Some m =>
      err = None /\ within (rect m) b /\
      Width (rect m) = w /\ Height (rect m) = h /\
      (forall r', In r' (occupied n) -> ~ overlap r' (rect m)) /\
      Permutation (occupied n1) (rect m :: occupied n)
    | None => n1 = n /\ err = Some ErrNoMoreSpace
    end.
Proof.
  intros Ht Hb Hw Hh n1 res err Hi.
  pose proof (Insert_on_tiles (mkPacker n 0 0) b w h Ht Hb Hw Hh) as HI.
  rewrite Insert_first_fit in HI. simpl in HI.
  rewrite insert_is_first_fit in Hi. unfold insert_first_fit in Hi.
  destruct (first_fit n w h) as [[a lf]|]; inversion Hi; subst; clear Hi.
  - destruct (HI _ _ _ eq_refl) as [Ht1 [_ [_ He]]]. simpl in Ht1, He.
    rewrite rect_split. split; [exact Ht1|]. split; [reflexivity | exact He].
  - split; [exact Ht | split; reflexivity].
Qed.

Lemma overlap_within_regions (a a' b b' : Rect) :
  within a b -> within a' b' -> ~ overlap b b' -> ~ overlap a a'.
Proof. unfold within, overlap. lia. Qed.

(** ** One call of [Insert] on a root with two partitions below it *)

Lemma Insert_two_parts (p : Packer) (b1 b2 : Rect) (w h : Z) :
  two_parts (root p) b1 b2 -> region_ok b1 -> region_ok b2 ->
  ~ overlap b1 b2 -> 0 <= w -> 0 <= h ->
  forall p1 r e,
    Insert p w h = (p1, (r, e)) ->
    two_parts (root p1) b1 b2 /\
    binWidth p1 = binWidth p /\ binHeight p1 = binHeight p /\
    rect (root p1) = rect (root p) /\
    match e with
    | None =>
      (within r b1 \/ within r b2) /\ Width r = w /\ Height r = h /\
      (forall r', In r' (occupied_below (root p)) -> ~ overlap r' r) /\
      Permutation (occupied_below (root p1)) (r :: occupied_below (root p))
    | Some _ => p1 = p
    end.
Proof.
  intros Ht Hb1 Hb2 Hdis Hw Hh p1 r e.
  destruct p as [n bw bh]. destruct n as [r0 [l|] [rt|]];
    simpl in Ht; try contradiction.
  destruct Ht as [Htl Htr].
  assert (HW1 : 0 <= Width b1 /\ 0 <= Height b1) by (unfold region_ok in Hb1; lia).
  assert (HW2 : 0 <= Width b2 /\ 0 <= Height b2) by (unfold region_ok in Hb2; lia).
  unfold Insert. simpl.
  destruct (insert l w h) as [l1 [resl errl]] eqn:Hl.
  destruct (insert_on_tiles l b1 w h Htl Hb1 Hw Hh _ _ _ Hl) as [Htl1 Hresl].
  destruct resl as [m|].
  - destruct Hresl as [_ [Hwi [Hmw [Hmh [Hov Hpm]]]]].
    intros H; inversion H; subst; clear H. simpl.
    repeat split; auto.
    + intros r' Hr'. apply in_app_or in Hr'. destruct Hr' as [Hr'|Hr'].
      * auto.
      * destruct (tiles_within rt b2 r' Htr) as [Hwi' _]; try tauto.
        intros Ho. apply overlap_sym in Ho. revert Ho.
        eapply overlap_within_regions; eauto.
    + rewrite Hpm. reflexivity.
  - destruct Hresl as [El _]. subst l1.
    destruct (insert rt w h) as [rt1 [resr errr]] eqn:Hr.
    destruct (insert_on_tiles rt b2 w h Htr Hb2 Hw Hh _ _ _ Hr) as [Htr1 Hresr].
    destruct resr as [m|].
    + destruct Hresr as [_ [Hwi [Hmw [Hmh [Hov Hpm]]]]].
      intros H; inversion H; subst; clear H. simpl.
      repeat split; auto.
      * intros r' Hr'. apply in_app_or in Hr'. destruct Hr' as [Hr'|Hr'].
        -- destruct (tiles_within l b1 r' Htl) as [Hwi' _]; try tauto.
           eapply overlap_within_regions; eauto.
        -- auto.
      * rewrite Hpm. apply Permutation_sym, Permutation_middle.
    + destruct Hresr as [Er _]. subst rt1.
      intros H; inversion H; subst; clear H. simpl. auto.
Qed.

Lemma inserts_two_parts (reqs : list (Z * Z)) :
  forall p b1 b2,
    two_parts (root p) b1 b2 -> region_ok b1 -> region_ok b2 ->
    ~ overlap b1 b2 -> sizes_ok reqs ->
    let p' := fst (inserts p reqs) in
    two_parts (root p') b1 b2 /\
    binWidth p' = binWidth p /\ binHeight p' = binHeight p /\
    rect (root p') = rect (root p) /\
    Forall (fun r => within r b1 \/ within r b2) (placed (snd (inserts p reqs))) /\
    Permutation (occupied_below (root p'))
                (placed (snd (inserts p reqs)) ++ occupied_below (root p)).
Proof.
  induction reqs as [|[w h] rest IH]; intros p b1 b2 Ht Hb1 Hb2 Hdis Hs.
  - simpl. auto 7.
  - inversion Hs as [|x l [Hw Hh] Hrest]; subst. simpl in Hw, Hh.
    rewrite inserts_cons. simpl fst. simpl snd.
    destruct (Insert p w h) as [p1 [r e]] eqn:HI. simpl fst. simpl snd.
    destruct (Insert_two_parts p b1 b2 w h Ht Hb1 Hb2 Hdis Hw Hh p1 r e HI)
      as [Ht1 [HW1 [HH1 [HR1 He]]]].
    destruct (IH p1 b1 b2 Ht1 Hb1 Hb2 Hdis Hrest)
      as [Ht2 [HW2 [HH2 [HR2 [Hin Hpm]]]]].
    split; [exact Ht2|]. split; [congruence|]. split; [congruence|].
    split; [congruence|].
    destruct e as [e|]; simpl.
    + subst p1. split; assumption.
    + destruct He as [Hr [_ [_ [_ Hpm1]]]].
      split; [constructor; assumption|].
      rewrite Hpm, Hpm1. symmetry. apply Permutation_middle.
Qed.

(** ** The tree that [Enlarge] builds *)

Lemma strips_ok (ow oh nw nh : Z) :
  0 <= ow <= nw -> nw <= GoInt.maxInt -> 0 <= oh <= nh -> nh <= GoInt.maxInt ->
  region_ok (bottom_strip ow oh nw nh) /\ region_ok (right_strip ow oh nw nh) /\
  ~ overlap (bottom_strip ow oh nw nh) (right_strip ow oh nw nh).
Proof. unfold region_ok, overlap, bottom_strip, right_strip. simpl. lia. Qed.

Lemma Enlarge_two_parts (p : Packer) (nw nh : Z) :
  0 <= binWidth p <= nw -> nw <= GoInt.maxInt ->
  0 <= binHeight p <= nh -> nh <= GoInt.maxInt ->
  Enlarge p nw nh
  = ({| root := Node (mkRect 0 0 nw nh)
                     (Some (leaf (bottom_strip (binWidth p) (binHeight p) nw nh)))
                     (Some (leaf (right_strip (binWidth p) (binHeight p) nw nh)));
        binWidth := nw; binHeight := nh |}, None).
Proof.
  intros HW HWm HH HHm. unfold Enlarge.
  replace ((nw <? binWidth p) || (nh <? binHeight p)) with false
    by (symmetry; apply orb_false_iff; rewrite !Z.ltb_ge; lia).
  unfold bottom_strip, right_strip.
  rewrite !sub_exact by (apply nonneg_in_range; lia). reflexivity.
Qed.

Lemma two_parts_leaves (n : node) (b1 b2 : Rect) (lf : Rect) :
  two_parts n b1 b2 ->
  0 <= Width b1 -> 0 <= Height b1 -> 0 <= Width b2 -> 0 <= Height b2 ->
  In lf (map snd (leaves n)) ->
  (within lf b1 \/ within lf b2) /\ 0 <= Width lf /\ 0 <= Height lf.
Proof.
  intros Ht HW1 HH1 HW2 HH2 Hin.
  destruct n as [r0 [l|] [rt|]]; simpl in Ht; try contradiction.
  destruct Ht as [Htl Htr]. simpl in Hin.
  rewrite map_app, !snd_under in Hin. apply in_app_or in Hin.
  destruct Hin as [Hin|Hin].
  - destruct (tiles_within l b1 lf Htl HW1 HH1 (or_intror Hin)). tauto.
  - destruct (tiles_within rt b2 lf Htr HW2 HH2 (or_intror Hin)). tauto.
Qed.

(** ** After [Enlarge] only the two new strips are used *)

(** X1. After a call of [Enlarge] that grows (or keeps) a bin with
    non-negative sides, every rectangle that later calls of [Insert] with
    non-negative sizes return lies within the new bin and does not overlap
    the bin as it was before the call, whatever the tree held. *)
Theorem Enlarge_keeps_old_bin_clear
        (p : Packer) (newWidth newHeight : Z) (reqs : list (Z * Z)) :
  0 <= binWidth p <= newWidth -> newWidth <= GoInt.maxInt ->
  0 <= binHeight p <= newHeight -> newHeight <= GoInt.maxInt ->
  sizes_ok reqs ->
  snd (Enlarge p newWidth newHeight) = None /\
  Forall (fun r => within r (mkRect 0 0 newWidth newHeight) /\ ~ overlap r (bin p))
         (placed (snd (inserts (fst (Enlarge p newWidth newHeight)) reqs))).
Proof.
  intros HW HWm HH HHm Hs.
  rewrite (Enlarge_two_parts p newWidth newHeight HW HWm HH HHm). simpl.
  split; [reflexivity|].
  destruct (strips_ok (binWidth p) (binHeight p) newWidth newHeight HW HWm HH HHm)
    as [Hb1 [Hb2 Hdis]].
  match goal with |- Forall _ (placed (snd (inserts ?q reqs))) =>
    destruct (inserts_two_parts reqs q _ _ (conj eq_refl eq_refl) Hb1 Hb2 Hdis Hs)
      as [_ [_ [_ [_ [Hin _]]]]]
  end.
  eapply Forall_impl; [|exact Hin].
  intros r Hr. unfold within, overlap, bottom_strip, right_strip, bin in *.
  simpl in *. lia.
Qed.

Lemma Enlarge_keeps_old_bin_clear_witness :
  placed (snd (inserts (fst (Enlarge (New 5 5) 20 20)) [(15, 15); (15, 5); (1, 1)]))
  = [mkRect 0 5 15 15; mkRect 5 0 15 5; mkRect 15 5 1 1] /\
  Forall (fun r => within r (mkRect 0 0 20 20) /\ ~ overlap r (bin (New 5 5)))
         (placed (snd (inserts (fst (Enlarge (New 5 5) 20 20))
                               [(15, 15); (15, 5); (1, 1)]))).
Proof.
  split; [reflexivity|].
  apply (Enlarge_keeps_old_bin_clear (New 5 5) 20 20 [(15, 15); (15, 5); (1, 1)]).
  - simpl. lia.
  - unfold GoInt.maxInt. lia.
  - simpl. lia.
  - unfold GoInt.maxInt. lia.
  - repeat constructor; simpl; lia.
Defined.

(** X2. After a call of [Enlarge] that grows (or keeps) a bin with
    non-negative sides, and any calls of [Insert] with non-negative sizes, a
    request that fits neither the strip below the old bin nor the strip to
    its right fails with the no-space error, however empty the old bin was.
    In particular, after [Enlarge] to the bin's own size every request with
    a positive width and height fails. *)
Theorem Enlarge_leaves_only_strips
        (p : Packer) (newWidth newHeight : Z) (reqs : list (Z * Z))
        (width height : Z) :
  0 <= binWidth p <= newWidth -> newWidth <= GoInt.maxInt ->
  0 <= binHeight p <= newHeight -> newHeight <= GoInt.maxInt ->
  sizes_ok reqs ->
  ~ (width <= newWidth /\ height <= newHeight - binHeight p) ->
  ~ (width <= newWidth - binWidth p /\ height <= binHeight p) ->
  snd (Insert (fst (inserts (fst (Enlarge p newWidth newHeight)) reqs)) width height)
  = (mkRect 0 0 0 0, Some ErrNoMoreSpace).
Proof.
  intros HW HWm HH HHm Hs Hn1 Hn2.
  rewrite (Enlarge_two_parts p newWidth newHeight HW HWm HH HHm). simpl.
  destruct (strips_ok (binWidth p) (binHeight p) newWidth newHeight HW HWm HH HHm)
    as [Hb1 [Hb2 Hdis]].
  match goal with |- snd (Insert (fst (inserts ?q reqs)) _ _) = _ =>
    destruct (inserts_two_parts reqs q _ _ (conj eq_refl eq_refl) Hb1 Hb2 Hdis Hs)
      as [Ht _];
    set (p' := fst (inserts q reqs)) in *
  end.
  rewrite Insert_first_fit.
  replace (first_fit (root p') width height) with (@None (path * Rect));
    [reflexivity|].
  symmetry. apply find_all_false. intros [a lf] Hin. simpl.
  destruct (two_parts_leaves (root p') _ _ lf Ht) as [Hwi [Hlw Hlh]];
    try (unfold bottom_strip, right_strip; simpl; lia).
  { eapply leaves_In_snd. exact Hin. }
  destruct (fits width height lf) eqn:Hfit; [|reflexivity].
  apply fits_true in Hfit. exfalso.
  unfold within, bottom_strip, right_strip in Hwi. simpl in Hwi. lia.
Qed.

Lemma Enlarge_leaves_only_strips_witness :
  snd (Insert (fst (inserts (fst (Enlarge (New 5 5) 5 5)) [(0, 0)])) 1 1)
  = (mkRect 0 0 0 0, Some ErrNoMoreSpace) /\
  snd (Insert (fst (inserts (fst (Enlarge (New 5 5) 20 20)) [])) 16 16)
  = (mkRect 0 0 0 0, Some ErrNoMoreSpace).
Proof.
  split.
  - apply (Enlarge_leaves_only_strips (New 5 5) 5 5 [(0, 0)] 1 1);
      try (unfold GoInt.maxInt; simpl; lia).
    repeat constructor; simpl; lia.
  - apply (Enlarge_leaves_only_strips (New 5 5) 20 20 [] 16 16);
      try (unfold GoInt.maxInt; simpl; lia).
    constructor.
Defined.

(** ** Calls of both kinds keep the packer sound *)

Lemma sound_New (W H : Z) :
  0 <= W <= GoInt.maxInt -> 0 <= H <= GoInt.maxInt -> sound (New W H) [].
Proof.
  intros HW HH. unfold sound. simpl.
  split; [exact HW|]. split; [exact HH|]. split; [contradiction|].
  left. split; [reflexivity | contradiction].
Qed.

Lemma sound_incl (p : Packer) (l l' : list Rect) :
  sound p l -> (forall x, In x l' -> In x l) -> sound p l'.
Proof.
  intros [HW [HH [Hwi Hc]]] Hincl. unfold sound.
  split; [exact HW|]. split; [exact HH|]. split; [auto|].
  destruct Hc as [[Ht Hocc]|[ow [oh [Ho1 [Ho2 [Ht Hocc]]]]]].
  - left. auto.
  - right. exists ow, oh.
    split; [exact Ho1|]. split; [exact Ho2|]. split; [exact Ht | auto].
Qed.

Lemma sound_Insert (p : Packer) (past : list Rect) (w h : Z) :
  sound p past -> 0 <= w -> 0 <= h ->
  forall p1 r e,
    Insert p w h = (p1, (r, e)) ->
    match e with
    | None => sound p1 (r :: past) /\ (forall r', In r' past -> ~ overlap r' r)
    | Some _ => p1 = p
    end.
Proof.
  intros [HW [HH [Hwi Hc]]] Hw Hh p1 r e HI.
  destruct Hc as [[Ht Hocc]|[ow [oh [Ho1 [Ho2 [Ht Hocc]]]]]].
  - pose proof (bin_region_ok _ _ HW HH) as Hb. fold (bin p) in Hb.
    destruct (Insert_on_tiles p (bin p) w h Ht Hb Hw Hh p1 r e HI)
      as [Ht1 [HW1 [HH1 He]]].
    destruct e as [e|]; [exact He|].
    destruct He as [Hr [_ [_ [Hov Hpm]]]].
    assert (Hbin : bin p1 = bin p) by (unfold bin; congruence).
    split; [|auto].
    unfold sound. rewrite Hbin, HW1, HH1.
    split; [exact HW|]. split; [exact HH|]. split.
    + intros x [E|Hx]; [subst x; exact Hr | auto].
    + left. split; [exact Ht1|].
      intros x Hx. apply (Permutation_in _ (Permutation_sym Hpm)).
      destruct Hx as [E|Hx]; [left; exact E | right; auto].
  - destruct (strips_ok ow oh (binWidth p) (binHeight p)) as [Hb1 [Hb2 Hdis]];
      try lia.
    destruct (Insert_two_parts p _ _ w h Ht Hb1 Hb2 Hdis Hw Hh p1 r e HI)
      as [Ht1 [HW1 [HH1 [_ He]]]].
    destruct e as [e|]; [exact He|].
    destruct He as [Hr [_ [_ [Hov Hpm]]]].
    assert (Hbin : bin p1 = bin p) by (unfold bin; congruence).
    assert (Hrb : within r (bin p)).
    { unfold within, bottom_strip, right_strip, bin in *. simpl in *. lia. }
    split.
    + unfold sound. rewrite Hbin, HW1, HH1.
      split; [exact HW|]. split; [exact HH|]. split.
      * intros x [E|Hx]; [subst x; exact Hrb | auto].
      * right. exists ow, oh.
        split; [exact Ho1|]. split; [exact Ho2|]. split; [exact Ht1|].
        intros x Hx. destruct Hx as [E|Hx].
        -- right. apply (Permutation_in _ (Permutation_sym Hpm)). left. exact E.
        -- destruct (Hocc x Hx) as [Hold|Hin]; [left; exact Hold|].
           right. apply (Permutation_in _ (Permutation_sym Hpm)). right. exact Hin.
    + intros r' Hr'. destruct (Hocc r' Hr') as [Hold|Hin]; [|auto].
      unfold within, overlap, bottom_strip, right_strip in *. simpl in *. lia.
Qed.

Lemma sound_Enlarge (p : Packer) (past : list Rect) (nw nh : Z) :
  sound p past -> nw <= GoInt.maxInt -> nh <= GoInt.maxInt ->
  sound (fst (Enlarge p nw nh)) past.
Proof.
  intros Hs HWm HHm.
  destruct (Z_lt_dec nw (binWidth p)) as [Hlw|Hgw];
    [|destruct (Z_lt_dec nh (binHeight p)) as [Hlh|Hgh]].
  - unfold Enlarge. replace (nw <? binWidth p) with true
      by (symmetry; apply Z.ltb_lt; exact Hlw).
    exact Hs.
  - unfold Enlarge. replace (nh <? binHeight p) with true
      by (symmetry; apply Z.ltb_lt; exact Hlh).
    rewrite orb_true_r. exact Hs.
  - destruct Hs as [HW [HH [Hwi _]]].
    rewrite Enlarge_two_parts by lia. simpl.
    unfold sound. simpl.
    split; [lia|]. split; [lia|]. split.
    + intros r Hr. specialize (Hwi r Hr).
      unfold within, bin in *. simpl in *. lia.
    + right. exists (binWidth p), (binHeight p).
      split; [lia|]. split; [lia|]. split; [split; reflexivity|].
      intros r Hr. left. exact (Hwi r Hr).
Qed.

Lemma run_sound (cs : list call) :
  forall p past,
    sound p past -> calls_ok cs ->
    sound (fst (run p cs)) (snd (run p cs) ++ past) /\
    ForallOrdPairs (fun x y => ~ overlap x y) (snd (run p cs)) /\
    (forall r' r, In r' past -> In r (snd (run p cs)) -> ~ overlap r' r).
Proof.
  induction cs as [|c rest IH]; intros p past Hs Hok.
  - simpl. split; [exact Hs|]. split; [constructor | intros r' r _ []].
  - inversion Hok as [|x l Hc Hrest]; subst.
    destruct c as [w h|nw nh].
    + destruct Hc as [Hw Hh]. simpl.
      destruct (Insert p w h) as [p1 [r e]] eqn:HI.
      pose proof (sound_Insert p past w h Hs Hw Hh p1 r e HI) as Hstep.
      destruct e as [e|].
      * subst p1. specialize (IH p past Hs Hrest).
        destruct (run p rest) as [p2 rs]. exact IH.
      * destruct Hstep as [Hs1 Hov].
        specialize (IH p1 (r :: past) Hs1 Hrest).
        destruct (run p1 rest) as [p2 rs]. simpl in *.
        destruct IH as [Hs2 [Hpw Hov2]].
        split; [|split].
        -- apply (sound_incl _ _ _ Hs2). intros x Hx.
           apply in_or_app. destruct Hx as [E|Hx]; [right; left; exact E|].
           apply in_app_or in Hx. destruct Hx; [left | right; right]; assumption.
        -- constructor; [|exact Hpw].
           apply Forall_forall. intros x Hx. apply (Hov2 r x); [left; reflexivity | exact Hx].
        -- intros r' x Hr' [E|Hx]; [subst x; auto|].
           apply (Hov2 r' x); [right; exact Hr' | exact Hx].
    + destruct Hc as [HWm HHm]. simpl.
      pose proof (sound_Enlarge p past nw nh Hs HWm HHm) as Hs1.
      destruct (Enlarge p nw nh) as [p1 e]. simpl in Hs1.
      exact (IH p1 past Hs1 Hrest).
Qed.

Lemma run_do_calls (cs : list call) :
  forall p, fst (run p cs) = do_calls p cs.
Proof.
  induction cs as [|c rest IH]; intros p; [reflexivity|].
  destruct c as [w h|nw nh]; simpl.
  - destruct (Insert p w h) as [p1 [r e]]. simpl.
    rewrite <- (IH p1). destruct (run p1 rest). reflexivity.
  - destruct (Enlarge p nw nh) as [p1 e]. simpl. apply IH.
Qed.

(** X3. Whatever calls of [Insert] (with non-negative sizes) and of
    [Enlarge] are made on a bin from [New] with non-negative sides, in
    whatever order and whether they fail or not, the rectangles returned by
    the successful calls of [Insert] are pairwise non-overlapping and each
    lies within the bin as it is after the calls. *)
Theorem placed_disjoint_across_Enlarge (W H : Z) (cs : list call) :
  0 <= W <= GoInt.maxInt -> 0 <= H <= GoInt.maxInt -> calls_ok cs ->
  let p := do_calls (New W H) cs in
  let rs := snd (run (New W H) cs) in
  pairwise_disjoint rs /\ Forall (fun r => within r (bin p)) rs.
Proof.
  intros HW HH Hok.
  destruct (run_sound cs (New W H) [] (sound_New W H HW HH) Hok)
    as [[_ [_ [Hwi _]]] [Hpw _]].
  rewrite run_do_calls in Hwi.
  split; [apply ordered_pairs_pairwise; exact Hpw|].
  apply Forall_forall. intros r Hr. apply Hwi. apply in_or_app. left. exact Hr.
Qed.

Lemma placed_disjoint_across_Enlarge_witness :
  let cs := [CallInsert 3 3; CallEnlarge 6 4; CallInsert 3 4; CallEnlarge 2 2;
             CallInsert 9 9; CallEnlarge 6 6; CallInsert 6 2] in
  snd (run (New 4 4) cs) = [mkRect 0 0 3 3; mkRect 0 4 6 2] /\
  bin (do_calls (New 4 4) cs) = mkRect 0 0 6 6 /\
  pairwise_disjoint (snd (run (New 4 4) cs)).
Proof.
  split; [reflexivity|]. split; [reflexivity|].
  apply (placed_disjoint_across_Enlarge 4 4
           [CallInsert 3 3; CallEnlarge 6 4; CallInsert 3 4; CallEnlarge 2 2;
            CallInsert 9 9; CallEnlarge 6 6; CallInsert 6 2]).
  - unfold GoInt.maxInt. lia.
  - unfold GoInt.maxInt. lia.
  - repeat constructor; unfold GoInt.maxInt; lia.
Defined.

(** ** Requests larger than the bin *)

Lemma sound_leaves (p : Packer) (past : list Rect) (lf : Rect) :
  sound p past -> In lf (map snd (leaves (root p))) ->
  within lf (bin p) /\ 0 <= Width lf /\ 0 <= Height lf.
Proof.
  intros [HW [HH [_ Hc]]] Hin.
  destruct Hc as [[Ht _]|[ow [oh [Ho1 [Ho2 [Ht _]]]]]].
  - apply (tiles_within (root p) (bin p) lf Ht); simpl; try lia. right. exact Hin.
  - destruct (two_parts_leaves (root p) _ _ lf Ht) as [Hwi Hnn];
      try (unfold bottom_strip, right_strip; simpl; lia); auto.
    split; [|exact Hnn].
    unfold within, bottom_strip, right_strip, bin in *. simpl in *. lia.
Qed.

(** X4. In every state reached from [New] (non-negative sides) by calls of
    [Insert] with non-negative sizes and of [Enlarge], a request wider than
    the bin's current width or higher than its current height fails with the
    no-space error. *)
Theorem oversize_request_fails (W H : Z) (cs : list call) (width height : Z) :
  0 <= W <= GoInt.maxInt -> 0 <= H <= GoInt.maxInt -> calls_ok cs ->
  let p := do_calls (New W H) cs in
  binWidth p < width \/ binHeight p < height ->
  snd (Insert p width height) = (mkRect 0 0 0 0, Some ErrNoMoreSpace).
Proof.
  intros HW HH Hok p Hbig.
  destruct (run_sound cs (New W H) [] (sound_New W H HW HH) Hok) as [Hs _].
  rewrite run_do_calls in Hs. fold p in Hs.
  rewrite Insert_first_fit.
  replace (first_fit (root p) width height) with (@None (path * Rect));
    [reflexivity|].
  symmetry. apply find_all_false. intros [a lf] Hin. simpl.
  destruct (sound_leaves p _ lf Hs (leaves_In_snd _ _ _ Hin)) as [Hwi [Hlw Hlh]].
  destruct (fits width height lf) eqn:Hfit; [|reflexivity].
  apply fits_true in Hfit. exfalso.
  unfold within, bin in Hwi. simpl in Hwi. lia.
Qed.

Lemma oversize_request_fails_witness :
  snd (Insert (do_calls (New 4 4) [CallInsert 1 1; CallEnlarge 8 6]) 2 7)
  = (mkRect 0 0 0 0, Some ErrNoMoreSpace).
Proof.
  apply (oversize_request_fails 4 4 [CallInsert 1 1; CallEnlarge 8 6] 2 7).
  - unfold GoInt.maxInt. lia.
  - unfold GoInt.maxInt. lia.
  - repeat constructor; unfold GoInt.maxInt; lia.
  - right. simpl. lia.
Defined.

(** ** The area of the returned rectangles *)

Lemma sum_areas_zero_each (l : list Rect) :
  (forall r, In r l -> 0 <= Width r /\ 0 <= Height r) ->
  sum_areas l = 0 -> forall r, In r l -> area r = 0.
Proof.
  induction l as [|a l IH]; simpl; intros Hnn Hsum r Hr; [contradiction|].
  assert (0 <= area a) by (apply Z.mul_nonneg_nonneg; apply (Hnn a); auto).
  assert (0 <= sum_areas l) by (apply sum_areas_nonneg; auto).
  destruct Hr as [E|Hr]; [subst r; lia|].
  apply IH; auto. lia.
Qed.

(** X5. In a bin from [New] whose sides are non-negative and whose area fits
    an [int], used through [Insert] with non-negative sizes: [usedArea] is
    the sum of the areas of the rectangles returned so far, and that sum
    never exceeds the area of the bin. *)
Theorem placed_area_accounting (W H : Z) (reqs : list (Z * Z)) :
  0 <= W <= GoInt.maxInt -> 0 <= H <= GoInt.maxInt -> W * H <= GoInt.maxInt ->
  sizes_ok reqs ->
  let p := fst (inserts (New W H) reqs) in
  let rs := placed (snd (inserts (New W H) reqs)) in
  usedArea (root p) = sum_areas rs /\ 0 <= sum_areas rs <= W * H.
Proof.
  intros HW HH Hmax Hs p rs.
  destruct (inserts_on_tiles reqs (New W H) (mkRect 0 0 W H)
              (New_tiles W H) (bin_region_ok W H HW HH) Hs)
    as [Ht [_ [_ [_ [_ [_ Hpm]]]]]].
  fold p in Ht, Hpm. fold rs in Hpm. simpl in Hpm. rewrite app_nil_r in Hpm.
  pose proof (tiles_used_le (root p) _ Ht) as Hu. unfold area in Hu. simpl in Hu.
  rewrite (usedArea_exact (root p) _ Ht) by (unfold area; simpl; lia).
  unfold used in *. rewrite (sum_areas_perm _ _ Hpm) in *.
  split; [reflexivity | lia].
Qed.

Lemma placed_area_accounting_witness :
  usedArea (root (fst (inserts (New 4 4) [(3, 3); (5, 1); (1, 4)]))) = 13 /\
  usedArea (root (fst (inserts (New 4 4) [(3, 3); (5, 1); (1, 4)])))
  = sum_areas (placed (snd (inserts (New 4 4) [(3, 3); (5, 1); (1, 4)]))).
Proof.
  split; [reflexivity|].
  apply (placed_area_accounting 4 4 [(3, 3); (5, 1); (1, 4)]).
  - unfold GoInt.maxInt. lia.
  - unfold GoInt.maxInt. lia.
  - unfold GoInt.maxInt. lia.
  - repeat constructor; simpl; lia.
Defined.

(** X6. In a bin from [New] with non-negative sides, used through [Insert]
    with non-negative sizes: once the areas of the returned rectangles add up
    to the area of the bin, every request with a positive width and a
    positive height fails with the no-space error. *)
Theorem full_bin_rejects (W H : Z) (reqs : list (Z * Z)) (width height : Z) :
  0 <= W <= GoInt.maxInt -> 0 <= H <= GoInt.maxInt -> sizes_ok reqs ->
  let p := fst (inserts (New W H) reqs) in
  let rs := placed (snd (inserts (New W H) reqs)) in
  sum_areas rs = W * H -> 0 < width -> 0 < height ->
  snd (Insert p width height) = (mkRect 0 0 0 0, Some ErrNoMoreSpace).
Proof.
  intros HW HH Hs p rs Hfull Hw Hh.
  destruct (inserts_on_tiles reqs (New W H) (mkRect 0 0 W H)
              (New_tiles W H) (bin_region_ok W H HW HH) Hs)
    as [Ht [_ [_ [_ [_ [_ Hpm]]]]]].
  fold p in Ht, Hpm. fold rs in Hpm. simpl in Hpm. rewrite app_nil_r in Hpm.
  pose proof (tiles_area (root p) _ Ht) as Ha. unfold area in Ha. simpl in Ha.
  unfold used in Ha. rewrite (sum_areas_perm _ _ Hpm), Hfull in Ha.
  assert (Hfree : free (root p) = 0) by lia.
  assert (Hnn : forall r, In r (map snd (leaves (root p))) ->
                          0 <= Width r /\ 0 <= Height r).
  { intros r Hr. eapply tiles_within; eauto; simpl; lia. }
  rewrite Insert_first_fit.
  replace (first_fit (root p) width height) with (@None (path * Rect));
    [reflexivity|].
  symmetry. apply find_all_false. intros [a lf] Hin. simpl.
  apply leaves_In_snd in Hin.
  pose proof (sum_areas_zero_each _ Hnn Hfree lf Hin) as Hz.
  destruct (Hnn lf Hin) as [Hlw Hlh].
  destruct (fits width height lf) eqn:Hfit; [|reflexivity].
  apply fits_true in Hfit. exfalso. unfold area in Hz. nia.
Qed.

Lemma full_bin_rejects_witness :
  snd (Insert (fst (inserts (New 10 10) [(10, 10); (0, 0)])) 1 1)
  = (mkRect 0 0 0 0, Some ErrNoMoreSpace).
Proof.
  apply (full_bin_rejects 10 10 [(10, 10); (0, 0)] 1 1).
  - unfold GoInt.maxInt. lia.
  - unfold GoInt.maxInt. lia.
  - repeat constructor; simpl; lia.
  - reflexivity.
  - lia.
  - lia.
Defined.

(** ** The size of the tree *)

Lemma size_replace (a : path) :
  forall n lf m,
    lookup n a = Some (leaf lf) ->
    (size (replace n a m) + 1 = size n + size m)%nat.
Proof.
  induction a as [|d a IH]; intros n lf m Hl.
  - simpl in *. inversion Hl; subst n. simpl. lia.
  - destruct n as [r l rt]. destruct d; simpl in Hl.
    + destruct l as [ln|]; [|discriminate]. simpl.
      specialize (IH ln lf m Hl). lia.
    + destruct rt as [rn|]; [|discriminate]. simpl.
      specialize (IH rn lf m Hl). lia.
Qed.

Lemma size_split (r : Rect) (w h : Z) : size (split r w h) = 3%nat.
Proof. unfold split. destruct (_ <? _); reflexivity. Qed.

(** X7. The tree grows by two nodes with every call of [Insert] that
    succeeds and not at all with one that fails, whatever the sizes asked
    for: after any calls of [Insert] on a packer from [New] the tree has one
    node plus two per returned rectangle. *)
Theorem tree_size_linear (reqs : list (Z * Z)) :
  (forall p,
      size (root (fst (inserts p reqs)))
      = (size (root p) + 2 * length (placed (snd (inserts p reqs))))%nat) /\
  (forall W H,
      size (root (fst (inserts (New W H) reqs)))
      = (1 + 2 * length (placed (snd (inserts (New W H) reqs))))%nat).
Proof.
  assert (Hgen : forall p,
             size (root (fst (inserts p reqs)))
             = (size (root p) + 2 * length (placed (snd (inserts p reqs))))%nat).
  { induction reqs as [|[w h] rest IH]; intros p; [simpl; lia|].
    rewrite inserts_cons. simpl fst. simpl snd. rewrite IH.
    rewrite Insert_first_fit.
    destruct (first_fit (root p) w h) as [[a lf]|] eqn:Hff; simpl; [|lia].
    apply first_fit_In in Hff. destruct Hff as [Hin _].
    apply leaves_lookup in Hin.
    pose proof (size_replace a (root p) lf (split lf w h) Hin) as Hsz.
    rewrite size_split in Hsz. lia. }
  split; [exact Hgen|].
  intros W H. rewrite Hgen. reflexivity.
Qed.

(** ** Occupancy after [Enlarge] *)





(** ** The tree as a partition of the bin *)

(** X9. In a bin from [New] with non-negative sides, used through [Insert]
    with non-negative sizes, after any number of calls: every rectangle of
    the tree, occupied or free, lies within the bin and has non-negative
    sides; no occupied rectangle overlaps a free one; and the areas of the
    occupied and of the free rectangles add up to the area of the bin. *)
Theorem tree_partitions_bin (W H : Z) (reqs : list (Z * Z)) :
  0 <= W <= GoInt.maxInt -> 0 <= H <= GoInt.maxInt -> sizes_ok reqs ->
  let n := root (fst (inserts (New W H) reqs)) in
  (forall r, In r (occupied n) \/ In r (map snd (leaves n)) ->
             within r (mkRect 0 0 W H) /\ 0 <= Width r /\ 0 <= Height r) /\
  (forall r lf, In r (occupied n) -> In lf (map snd (leaves n)) -> ~ overlap r lf) /\
  sum_areas (occupied n) + sum_areas (map snd (leaves n)) = W * H.
Proof.
  intros HW HH Hs n.
  destruct (inserts_on_tiles reqs (New W H) (mkRect 0 0 W H)
              (New_tiles W H) (bin_region_ok W H HW HH) Hs) as [Ht _].
  fold n in Ht. split; [|split].
  - intros r Hr. apply (tiles_within n _ r Ht); simpl; try lia. exact Hr.
  - intros r lf Hr Hlf.
    apply (tiles_occupied_free n _ r lf Ht); simpl; try lia; assumption.
  - exact (tiles_area n _ Ht).
Qed.

Lemma tree_partitions_bin_witness :
  sum_areas (occupied (root (fst (inserts (New 4 4) [(3, 3); (1, 4)]))))
  + sum_areas (map snd (leaves (root (fst (inserts (New 4 4) [(3, 3); (1, 4)])))))
  = 4 * 4.
Proof.
  destruct (tree_partitions_bin 4 4 [(3, 3); (1, 4)]) as [_ [_ Ha]].
  - unfold GoInt.maxInt. lia.
  - unfold GoInt.maxInt. lia.
  - repeat constructor; simpl; lia.
  - exact Ha.
Defined.

(** ** Requests that fail, requests that cannot fail *)

(** X10. Failure is monotone in the request: when [Insert(w, h)] fails on a
    packer, [Insert(w', h')] with [w <= w'] and [h <= h'] fails on it too
    (and leaves it as it was), whatever the tree and the sizes. *)
Theorem Insert_failure_monotone (p : Packer) (w h w' h' : Z) :
  w <= w' -> h <= h' ->
  snd (snd (Insert p w h)) = Some ErrNoMoreSpace ->
  Insert p w' h' = (p, (mkRect 0 0 0 0, Some ErrNoMoreSpace)).
Proof.
  intros Hw Hh. rewrite !Insert_first_fit.
  destruct (first_fit (root p) w h) as [[a lf]|] eqn:Hff; [discriminate|].
  intros _.
  replace (first_fit (root p) w' h') with (@None (path * Rect)); [reflexivity|].
  symmetry. apply find_all_false. intros [a lf] Hin. simpl.
  pose proof (find_none _ _ Hff (a, lf) Hin) as Hno. simpl in Hno.
  destruct (fits w' h' lf) eqn:Hfit; [|reflexivity].
  apply fits_true in Hfit.
  assert (Hyes : fits w h lf = true) by (apply fits_true; lia).
  congruence.
Qed.

Lemma Insert_failure_monotone_witness :
  Insert (fst (Insert (New 4 4) 3 3)) 3 5
  = (fst (Insert (New 4 4) 3 3), (mkRect 0 0 0 0, Some ErrNoMoreSpace)).
Proof.
  apply (Insert_failure_monotone (fst (Insert (New 4 4) 3 3)) 2 2 3 5).
  - lia.
  - lia.
  - reflexivity.
Defined.

Lemma leaves_nonempty (n : node) : leaves n <> [].
Proof.
  induction n as [r l rt IHl IHr] using node_ind.
  destruct l as [ln|], rt as [rn|]; simpl in *; try discriminate.
  - destruct (leaves ln); [congruence | discriminate].
  - destruct (leaves ln); [congruence | discriminate].
  - destruct (leaves rn); [congruence | discriminate].
Qed.

(** X11. A request for an empty rectangle cannot fail: in every state
    reached from [New] (non-negative sides) by calls of [Insert] with
    non-negative sizes and of [Enlarge], [Insert(0, 0)] returns no error
    (and, by X7, adds two nodes to the tree every time). *)
Theorem empty_request_succeeds (W H : Z) (cs : list call) :
  0 <= W <= GoInt.maxInt -> 0 <= H <= GoInt.maxInt -> calls_ok cs ->
  snd (snd (Insert (do_calls (New W H) cs) 0 0)) = None.
Proof.
  intros HW HH Hok.
  destruct (run_sound cs (New W H) [] (sound_New W H HW HH) Hok) as [Hs _].
  rewrite run_do_calls in Hs. set (p := do_calls (New W H) cs) in *.
  rewrite Insert_first_fit. unfold first_fit.
  pose proof (leaves_nonempty (root p)) as Hne.
  pose proof (fun lf => sound_leaves p _ lf Hs) as Hlv.
  destruct (leaves (root p)) as [|[a lf] rest]; [congruence|].
  simpl. replace (fits 0 0 lf) with true; [reflexivity|].
  symmetry. apply fits_true.
  destruct (Hlv lf) as [_ Hnn]; [left; reflexivity | lia].
Qed.

Lemma empty_request_succeeds_witness :
  snd (snd (Insert (do_calls (New 4 4) [CallInsert 4 4; CallEnlarge 4 4]) 0 0))
  = None.
Proof.
  apply (empty_request_succeeds 4 4 [CallInsert 4 4; CallEnlarge 4 4]).
  - unfold GoInt.maxInt. lia.
  - unfold GoInt.maxInt. lia.
  - repeat constructor; unfold GoInt.maxInt; lia.
Defined.
